(** * langroid: input normaliser, link crawler and chat agent

    A shallow embedding of [llmagent/parsing/urls.py],
    [llmagent/agent/chat_agent.py] and [examples/docqa/chat.py].  External
    capabilities (the pydantic URL validator, the filesystem, the HTTP
    client, the HTML parser, [urljoin], the LLM, the message handler of the
    [Agent] base class) are section variables; Python exceptions and
    in-place mutation are explicit.

    The first half of the file holds the definitions, the second half the
    lemmas about them. *)

From stdpp Require Import gmap strings list pretty.
From Stdlib Require Import ZArith Ascii.

#[local] Open Scope string_scope.
#[local] Open Scope list_scope.

(** * Definitions *)

(** ** llmagent/parsing/urls.py *)
Module Urls.

(** *** get_urls_and_paths *)

(** What [get_urls_and_paths] does besides building its two lists. *)
Inductive NormEvent :=
  | ExistsCall (item : string)     (* os.path.exists(item) was consulted *)
  | Warning (msg : string).        (* logger.warning(msg) *)

#[global] Instance NormEvent_eq_dec : EqDecision NormEvent.
Proof. solve_decision. Defined.

(** The two local lists of [get_urls_and_paths] and the log. *)
Record Normalized := {
  urls : list string;
  paths : list string;
  norm_log : list NormEvent;
}.

Section InputNormalizer.
(** [Url(url=item)]: [Some u] is the validated field [m.url],
    [None] is pydantic's [ValidationError]. *)
Variable Url : string → option string.
(** [os.path.exists]. *)
Variable os_path_exists : string → bool.

(** One iteration of [for item in inputs]. *)
Definition normalize_item (acc : Normalized) (item : string) : Normalized :=
  match Url item with
  | Some u =>
      {| urls := urls acc ++ [u]; paths := paths acc; norm_log := norm_log acc |}
  | None =>
      if os_path_exists item then
        {| urls := urls acc; paths := paths acc ++ [item];
           norm_log := norm_log acc ++ [ExistsCall item] |}
      else
        {| urls := urls acc; paths := paths acc;
           norm_log := norm_log acc ++
             [ExistsCall item; Warning (item +:+ " is neither a URL nor a path.")] |}
  end.

Definition get_urls_and_paths_run (inputs : list string) : Normalized :=
  foldl normalize_item {| urls := []; paths := []; norm_log := [] |} inputs.

(** The returned pair [urls, paths]. *)
Definition get_urls_and_paths (inputs : list string) : list string * list string :=
  let r := get_urls_and_paths_run inputs in (urls r, paths r).

(** The class of one input, as the [try]/[except]/[if] decides it. *)
Definition is_url (item : string) : bool := bool_decide (is_Some (Url item)).
Definition is_path (item : string) : bool := negb (is_url item) && os_path_exists item.

(** Events one input contributes to the log. *)
Definition norm_events (item : string) : list NormEvent :=
  match Url item with
  | Some _ => []
  | None =>
      if os_path_exists item then [ExistsCall item]
      else [ExistsCall item; Warning (item +:+ " is neither a URL nor a path.")]
  end.

End InputNormalizer.

(** A validator and a filesystem for the scenario of the specification:
    one URL and one existing directory. *)
Definition https_only (item : string) : option string :=
  if String.prefix "https://" item then Some item else None.

Definition everything_exists (item : string) : bool := true.

(** *** find_urls *)

(** Ghost trace of one crawl: every HTTP request and every recursive
    descent, each with the visited-set as it stood at that moment, and
    every printed line. *)
Inductive CrawlEvent :=
  | Fetch (url : string) (seen : gset string)     (* requests.get(url) *)
  | Descend (url : string) (seen : gset string)   (* find_urls(link_url, ...) entered from the loop *)
  | Print (msg : string).

(** The shared mutable [visited] set, the number of requests made so far
    and the ghost trace. *)
Record Crawl := {
  visited : gset string;
  nfetch : nat;
  trace : list CrawlEvent;
}.

(** Exceptions that leave [find_urls]: nothing in it catches them. *)
Inductive CrawlExn :=
  | RequestCrash      (* requests.get raised something that is no RequestException *)
  | ParserError       (* BeautifulSoup or find_all raised *)
  | ValueError        (* urljoin raised on an href *)
  | MarkupError       (* rich's print refused the text *)
  | RecursionError.   (* the interpreter's limit on nested calls was reached *)

(** What [requests.get(url)] followed by [raise_for_status()] does: it
    returns a page, raises an [HTTPError] or another [RequestException]
    (which the [try] catches), or raises something else. *)
Inductive Response (Page : Type) :=
  | Fetched (content : Page)
  | Failed
  | Crashed.
Arguments Fetched {Page} content.
Arguments Failed {Page}.
Arguments Crashed {Page}.

(** How a call of [find_urls] ends, with the shared state it leaves. *)
Inductive CrawlResult :=
  | Returned (c : Crawl)
  | Raised (e : CrawlExn) (c : Crawl).

Definition crawl_state (r : CrawlResult) : Crawl :=
  match r with Returned c => c | Raised _ c => c end.

Definition fetched (tr : list CrawlEvent) : list string :=
  omap (λ e, match e with Fetch u _ => Some u | _ => None end) tr.

Definition descended (tr : list CrawlEvent) : list string :=
  omap (λ e, match e with Descend u _ => Some u | _ => None end) tr.

(** A request is made for a URL already in the set; a descent is made
    into a URL not yet in the set. *)
Definition wf_event (e : CrawlEvent) : Prop :=
  match e with
  | Fetch u seen => u ∈ seen
  | Descend u seen => u ∉ seen
  | Print _ => True
  end.

(** [visited.add(url)] *)
Definition visited_add (url : string) (c : Crawl) : Crawl :=
  {| visited := {[url]} ∪ visited c; nfetch := nfetch c; trace := trace c |}.

Definition log_event (e : CrawlEvent) (c : Crawl) : Crawl :=
  {| visited := visited c; nfetch := nfetch c; trace := trace c ++ [e] |}.

(** The line printed when a request fails. *)
Definition failure_line (url : string) : string :=
  "Failed to fetch '" +:+ url +:+ "'".

(** [for link_url in urls: if link_url not in visited: find_urls(link_url, ...)],
    with the recursive call abstracted as [rec]; an exception of a call ends
    the loop. *)
Fixpoint crawl_links (rec : string → Crawl → CrawlResult)
    (urls : list string) (c : Crawl) : CrawlResult :=
  match urls with
  | [] => Returned c
  | link_url :: rest =>
      if decide (link_url ∈ visited c) then crawl_links rec rest c
      else
        match rec link_url (log_event (Descend link_url (visited c)) c) with
        | Returned c' => crawl_links rec rest c'
        | Raised e c' => Raised e c'
        end
  end.


(** Effect of a call [find_urls(url, visited, ...)] that started in [c] and
    ended as [r]: what it requested, in order, is its own URL and then the
    URLs it descended into, up to the point where it stopped. *)
Definition call_spec (url : string) (c : Crawl) (r : CrawlResult) : Prop :=
  ∃ ev, trace (crawl_state r) = trace c ++ ev ∧
        visited (crawl_state r) = visited c ∪ list_to_set (fetched ev) ∧
        fetched ev `prefix_of` url :: descended ev ∧
        (∀ c', r = Returned c' → fetched ev = url :: descended ev) ∧
        NoDup (descended ev) ∧
        (∀ u, u ∈ descended ev → (u ∉ visited c) ∧ u ≠ url) ∧
        Forall wf_event ev.

(** Effect of the [for] loop over the links of one page. *)
Definition loop_spec (c : Crawl) (r : CrawlResult) : Prop :=
  ∃ ev, trace (crawl_state r) = trace c ++ ev ∧
        visited (crawl_state r) = visited c ∪ list_to_set (fetched ev) ∧
        fetched ev `prefix_of` descended ev ∧
        (∀ c', r = Returned c' → fetched ev = descended ev) ∧
        NoDup (descended ev) ∧
        (∀ u, u ∈ descended ev → u ∉ visited c) ∧
        Forall wf_event ev.

Section Crawler.
(** [response.content] of a successful request. *)
Context {Page : Type}.
(** [requests.get(url)] followed by [raise_for_status()], as the [n]-th
    request of the crawl. *)
Variable requests_get : nat → string → Response Page.
(** [link["href"]] for every [link] of [soup.find_all("a", href=True)];
    [None] when the parser raises. *)
Variable find_all_hrefs : Page → option (list string).
(** [urljoin(base, href)]; [None] is its [ValueError]. *)
Variable urljoin : string → string → option string.
(** Whether rich's [print] accepts the text; it raises a [MarkupError]
    otherwise. *)
Variable renders : string → bool.

(** [print(msg)] *)
Definition print (msg : string) (c : Crawl) : CrawlResult :=
  if renders msg then Returned (log_event (Print msg) c)
  else Raised MarkupError c.

(** The request inside the [try]. *)
Definition fetch (url : string) (c : Crawl) : Response Page * Crawl :=
  (requests_get (nfetch c) url,
   {| visited := visited c; nfetch := S (nfetch c);
      trace := trace c ++ [Fetch url (visited c)] |}).

(** The body of [find_urls] on the shared set.  [stack] is the number of
    nested calls the interpreter still allows; a call beyond it raises
    [RecursionError] before its body starts. *)
Fixpoint find_urls_rec (stack : nat) (url : string) (depth max_depth : Z)
    (c : Crawl) {struct stack} : CrawlResult :=
  match stack with
  | O => Raised RecursionError c
  | S stack' =>
      let c1 := visited_add url c in
      let '(response, c2) := fetch url c1 in
      match response with
      | Failed => print (failure_line url) c2
      | Crashed => Raised RequestCrash c2
      | Fetched content =>
          match find_all_hrefs content with
          | None => Raised ParserError c2
          | Some hrefs =>
              match mapM (urljoin url) hrefs with
              | None => Raised ValueError c2
              | Some urls =>
                  if (depth <? max_depth)%Z then
                    crawl_links
                      (λ link_url,
                         find_urls_rec stack' link_url (depth + 1) max_depth)
                      urls c2
                  else Returned c2
              end
          end
      end
  end.

(** [find_urls(url, visited, depth, max_depth)]; [visited = None] is the
    default argument.  The Python result is the [visited] field. *)
Definition find_urls (stack : nat) (url : string)
    (visited0 : option (gset string)) (depth max_depth : Z) : CrawlResult :=
  find_urls_rec stack url depth max_depth
    {| visited := default ∅ visited0; nfetch := 0; trace := [] |}.

(** Nothing but a failed request goes wrong: no request raises outside the
    [try], every page parses, every href joins and every line prints. *)
Definition well_behaved : Prop :=
  (∀ n url, requests_get n url ≠ Crashed) ∧
  (∀ content, is_Some (find_all_hrefs content)) ∧
  (∀ base href, is_Some (urljoin base href)) ∧
  (∀ text, renders text = true).

(** A linked page that can be crawled at the depth bound: its request
    fails and the failure line prints, or its page parses and its hrefs
    join. *)
Definition leaf_ok (n : nat) (url : string) : Prop :=
  match requests_get n url with
  | Failed => renders (failure_line url) = true
  | Crashed => False
  | Fetched content =>
      ∃ hrefs, find_all_hrefs content = Some hrefs ∧
               is_Some (mapM (urljoin url) hrefs)
  end.

End Crawler.

(** A three-page site whose first link is dead. *)
Definition site (n : nat) (url : string) : Response (list string) :=
  if decide (url = "http://s/") then Fetched ["a"; "b"; "a"]
  else if decide (url = "http://s/b") then Fetched ["a"; "c"]
  else Failed.

Definition site_hrefs (content : list string) : option (list string) :=
  Some content.

Definition site_join (base href : string) : option string :=
  Some ("http://s/" +:+ href).

Definition prints_all (text : string) : bool := true.






(** *** get_list_from_user *)

(** The loop state when [get_list_from_user] returns: the list made of
    [input_set], the answers [Prompt.ask] has not handed out yet and the
    prompts it displayed. *)
Record Asked := {
  asked_set : gset string;
  asked_rest : list string;
  asked_prompts : list string;
}.

Section ListFromUser.
(** [str.lower] and [str.strip]. *)
Variable str_lower : string → string.
Variable str_strip : string → string.

(** [input_str.lower() == "done" or input_str == ""] *)
Definition is_done (input_str : string) : Prop :=
  str_lower input_str = "done" ∨ input_str = "".

(** The [while True] loop.  [answers] holds what the successive calls of
    [Prompt.ask] return; [None] is the exception of a [Prompt.ask] that has
    no answer left to read. *)
Fixpoint ask_loop (prompt : string) (n : option Z) (answers : list string)
    (input_set : gset string) (i : Z) (shown : list string) : option Asked :=
  match answers with
  | [] => None
  | input_str :: rest =>
      let shown := shown ++ ["[blue]" +:+ prompt] in
      if decide (str_lower input_str = "done" ∨ input_str = "") then
        Some {| asked_set := input_set; asked_rest := rest; asked_prompts := shown |}
      else
        let input_set := {[str_strip input_str]} ∪ input_set in
        let i := (i + 1)%Z in
        if decide (Some i = n) then
          Some {| asked_set := input_set; asked_rest := rest; asked_prompts := shown |}
        else ask_loop prompt n rest input_set i shown
  end.

(** [get_list_from_user(prompt, n)]: the returned [list(input_set)], whose
    order Python leaves open, with the answers left over. *)
Definition get_list_from_user (prompt : string) (n : option Z)
    (answers : list string) : option (list string * list string) :=
  match ask_loop prompt n answers ∅ 0 [] with
  | Some r => Some (elements (asked_set r), asked_rest r)
  | None => None
  end.

End ListFromUser.

(** [str.lower] and [str.strip] on ASCII text, for the examples. *)
Definition ascii_lower_char (c : Ascii.ascii) : Ascii.ascii :=
  let n := Ascii.nat_of_ascii c in
  if bool_decide (65 ≤ n ≤ 90)%nat then Ascii.ascii_of_nat (n + 32) else c.

Fixpoint ascii_lower (s : string) : string :=
  match s with
  | EmptyString => EmptyString
  | String c s' => String (ascii_lower_char c) (ascii_lower s')
  end.

Definition is_blank (c : Ascii.ascii) : bool :=
  let n := Ascii.nat_of_ascii c in
  bool_decide (n = 32 ∨ 9 ≤ n ≤ 13)%nat.

Fixpoint lstrip_blank (s : string) : string :=
  match s with
  | EmptyString => EmptyString
  | String c s' => if is_blank c then lstrip_blank s' else s
  end.

Definition ascii_strip (s : string) : string :=
  String.rev (lstrip_blank (String.rev (lstrip_blank s))).


(** *** org_user_from_github *)

(** [s.lstrip(c)] for a one-character [c]. *)
Fixpoint lstrip (c : Ascii.ascii) (s : string) : string :=
  match s with
  | EmptyString => EmptyString
  | String c' s' => if decide (c' = c) then lstrip c s' else s
  end.

(** [s.split(c)] for a one-character separator [c]: never an empty list. *)
Fixpoint split (c : Ascii.ascii) (s : string) : list string :=
  match s with
  | EmptyString => [EmptyString]
  | String c' s' =>
      if decide (c' = c) then EmptyString :: split c s'
      else
        match split c s' with
        | part :: parts => String c' part :: parts
        | [] => [String c' EmptyString]
        end
  end.

(** Number of occurrences of [c] in [s]. *)
Fixpoint count_char (c : Ascii.ascii) (s : string) : nat :=
  match s with
  | EmptyString => 0
  | String c' s' => (if decide (c' = c) then 1 else 0) + count_char c s'
  end.

Section OrgUser.
(** [urllib.parse.urlparse(url).path]; [None] is the [ValueError] of a URL
    that does not parse. *)
Variable urlparse_path : string → option string.

(** [org_user_from_github(url)]; [None] is a [ValueError], from [urlparse]
    or from unpacking a list that does not have exactly two parts. *)
Definition org_user_from_github (url : string) : option string :=
  match urlparse_path url with
  | None => None
  | Some path =>
      match split "/"%char (lstrip "/"%char path) with
      | [org; user] => Some (org +:+ "-" +:+ user)
      | _ => None
      end
  end.

End OrgUser.

(** The path of a URL of the form [https://host/path], for the examples. *)
Definition path_after_host (url : string) : option string :=
  match split "/"%char url with
  | _ :: _ :: _ :: parts => Some ("/" +:+ String.concat "/" parts)
  | _ => None
  end.

End Urls.

(** ** llmagent/agent/chat_agent.py *)
Module ChatAgent.

Inductive Role := SYSTEM | USER | ASSISTANT.

Record LLMMessage := { role : Role; content : string }.

#[global] Instance Role_eq_dec : EqDecision Role.
Proof. solve_decision. Defined.

#[global] Instance LLMMessage_eq_dec : EqDecision LLMMessage.
Proof. solve_decision. Defined.

(** [Document(content=..., metadata=...)]; the LLM response carries the
    same two fields. *)
Record Document (Metadata : Type) := {
  doc_content : string;
  metadata : Metadata;
}.
Arguments doc_content {Metadata} _.
Arguments metadata {Metadata} _.
Arguments Build_Document {Metadata} _ _.

(** Exceptions that can leave the agent's methods: a failure of the LLM
    capability, or [input] hitting the end of standard input. *)
Inductive Exn := LLMError | EOFError.

(** Everything the agent does to the outside, in order. *)
Inductive AgentEvent :=
  | LLMCall (stream : bool) (messages : list LLMMessage)  (* self.respond_messages(messages) *)
  | HandleMessage (msg : string)                          (* self.handle_message(msg) *)
  | Input (line : string)                                 (* input("") returned line *)
  | Print (text : string).                                (* print(text, ...) *)

(** The transcripts sent to the LLM so far. *)
Definition llm_calls (tr : list AgentEvent) : list (list LLMMessage) :=
  omap (λ e, match e with LLMCall _ m => Some m | _ => None end) tr.

Definition handle_calls (tr : list AgentEvent) : list string :=
  omap (λ e, match e with HandleMessage m => Some m | _ => None end) tr.

(** The agent object with the part of the world it touches. *)
Record Agent := {
  task_messages : list LLMMessage;
  message_history : list LLMMessage;
  llm_stream : bool;             (* self.llm's streaming flag *)
  stdin : list string;           (* lines still to be read by input *)
  trace : list AgentEvent;
}.

(** Outcome of a method call: a value or a raised exception, in both cases
    with the state the call left behind. *)
Inductive Result (A : Type) :=
  | Ok (x : A) (a : Agent)
  | Raise (e : Exn) (a : Agent).
Arguments Ok {A} x a.
Arguments Raise {A} e a.

Definition state_of {A : Type} (r : Result A) : Agent :=
  match r with Ok _ a => a | Raise _ a => a end.

Definition M (A : Type) : Type := Agent → Result A.

#[global] Instance M_ret : MRet M := λ A x a, Ok x a.
#[global] Instance M_bind : MBind M := λ A B f m a,
  match m a with
  | Ok x a' => f x a'
  | Raise e a' => Raise e a'
  end.

(** Reading an attribute of [self]. *)
Definition get {A : Type} (field : Agent → A) : M A := λ a, Ok (field a) a.

Definition with_history (h : list LLMMessage) (a : Agent) : Agent :=
  {| task_messages := task_messages a; message_history := h;
     llm_stream := llm_stream a; stdin := stdin a; trace := trace a |}.

Definition with_stream (b : bool) (a : Agent) : Agent :=
  {| task_messages := task_messages a; message_history := message_history a;
     llm_stream := b; stdin := stdin a; trace := trace a |}.

Definition with_event (e : AgentEvent) (a : Agent) : Agent :=
  {| task_messages := task_messages a; message_history := message_history a;
     llm_stream := llm_stream a; stdin := stdin a; trace := trace a ++ [e] |}.

Definition set_message_history (h : list LLMMessage) : M unit := λ a,
  Ok () (with_history h a).

Definition set_stream (b : bool) : M unit := λ a, Ok () (with_stream b a).

Definition log_event (e : AgentEvent) : M unit := λ a, Ok () (with_event e a).

(** [self.message_history.append(m)] *)
Definition append_message (m : LLMMessage) : M unit :=
  h ← get message_history; set_message_history (h ++ [m]).

(** [print(text)] of rich, on text that it shows: rich refuses text with a
    closing tag that closes nothing, so a theorem that prints text the
    caller does not choose asks for text without markup. *)
Definition print (text : string) : M unit := log_event (Print text).


(** [input("")]: the next line of standard input, [EOFError] at its end. *)
Definition input : M string := λ a,
  match stdin a with
  | [] => Raise EOFError a
  | line :: rest =>
      Ok line {| task_messages := task_messages a;
                 message_history := message_history a;
                 llm_stream := llm_stream a; stdin := rest;
                 trace := trace a ++ [Input line] |}
  end.

Definition newline : string := String (Ascii.ascii_of_nat 10) EmptyString.

(** The triple-quoted argument of the reformat [respond] in [run]. *)
Definition reformat_prompt : string :=
  newline +:+ "                    "
  +:+ "If your question fits one of the JSON templates I gave, "
  +:+ newline +:+ "                    "
  +:+ "rewrite using that format please"
  +:+ newline +:+ "                    ".

Definition exit_tokens : list string := ["exit"; "quit"; "q"; "x"; "bye"].

Definition default_task : list LLMMessage :=
  [{| role := SYSTEM; content := "You are a helpful assistant" |}].

(** [ChatAgent.__init__], with the streaming flag of the configured LLM and
    the standard input the process will read. *)
Definition init (task : option (list LLMMessage)) (stream : bool)
    (lines : list string) : Agent :=
  {| task_messages := default default_task task; message_history := [];
     llm_stream := stream; stdin := lines; trace := [] |}.

Section Agent.
(** Type of the [metadata] field of an LLM response. *)
Context {Metadata : Type}.
(** The LLM capability behind [self.respond_messages]: the answer to the
    [n]-th call, given the transcript sent; [None] is a transport or model
    error. *)
Variable llm : nat → list LLMMessage → option (Document Metadata).
(** [self.handle_message] of the [Agent] base class, as its [n]-th call:
    [None] is Python's [None], [Some r] is [str] of the result. *)
Variable handle : nat → string → option string.
(** The process-wide switch that allows streaming. *)
Variable settings_stream : bool.

(** Modelled from the spec: [respond_messages] of the [Agent] base class,
    which is not among the sources.  It sends the transcript to the LLM
    capability and returns its reply; an error of the capability goes on to
    the caller. *)
Definition respond_messages (messages : list LLMMessage) : M (Document Metadata) :=
  n ← get (λ a, length (llm_calls (trace a)));
  stream ← get llm_stream;
  log_event (LLMCall stream messages) ;;
  match llm n messages with
  | Some response => mret response
  | None => Raise LLMError
  end.

(** [self.handle_message(msg)]: the call is recorded and answered by the
    collaborator [handle]. *)
Definition handle_message (msg : string) : M (option string) :=
  n ← get (λ a, length (handle_calls (trace a)));
  log_event (HandleMessage msg) ;;
  mret (handle n msg).

(** Modelled from the spec: the context manager [StreamingIfAllowed] of
    [llmagent.language_models.base], which is not among the sources.  The
    incremental-output mode is switched on (when allowed) for the duration of
    one LLM call and the previous mode is put back on exit, by normal return
    or by exception; the exception goes on to the caller. *)
Definition StreamingIfAllowed {A : Type} (body : M A) : M A := λ a,
  let old_stream := llm_stream a in
  match (set_stream settings_stream ;; body) a with
  | Ok x a' => (set_stream old_stream ;; mret x) a'
  | Raise e a' => Raise e (state_of (set_stream old_stream a'))
  end.

Definition assistant (response : Document Metadata) : LLMMessage :=
  {| role := ASSISTANT; content := doc_content response |}.

Definition user (message : string) : LLMMessage :=
  {| role := USER; content := message |}.

(** [Document(content=response.content, metadata=response.metadata)] *)
Definition document (response : Document Metadata) : Document Metadata :=
  {| doc_content := doc_content response; metadata := metadata response |}.

(** [ChatAgent.start] *)
Definition start : M (Document Metadata) :=
  response ← StreamingIfAllowed (task ← get task_messages; respond_messages task);
  task ← get task_messages;
  set_message_history (task ++ [assistant response]) ;;
  mret (document response).

(** [ChatAgent.respond] *)
Definition respond (message : string) : M (Document Metadata) :=
  append_message (user message) ;;
  response ← StreamingIfAllowed (h ← get message_history; respond_messages h);
  append_message (assistant response) ;;
  mret (document response).

(** One pass through the body of [while True] in [run], entered with
    [llm_msg]: [None] is [break], [Some m] is the value of [llm_msg] for
    the next pass. *)
Definition run_iteration (llm_msg : string) : M (option string) :=
  agent_result ← handle_message llm_msg;
  agent_result ← match agent_result with
                 | None =>
                     response ← respond reformat_prompt;
                     handle_message (doc_content response)
                 | Some _ => mret agent_result
                 end;
  msg ← match agent_result with
        | Some r => print ("[red]Agent: " +:+ r) ;; mret r
        | None => print (newline +:+ "[blue]Human: ") ;; input
        end;
  if decide (msg ∈ exit_tokens) then
    print "[green] Bye, hope this was useful!" ;; mret None
  else
    response ← respond msg; mret (Some (doc_content response)).

(** The [while True] loop, for at most [fuel] passes; [None] when the
    passes are used up before the loop is left. *)
Fixpoint run_loop (fuel : nat) (llm_msg : string) (a : Agent)
    : option (Result unit) :=
  match fuel with
  | O => None
  | S fuel' =>
      match run_iteration llm_msg a with
      | Ok (Some llm_msg') a' => run_loop fuel' llm_msg' a'
      | Ok None a' => Some (Ok () a')
      | Raise e a' => Some (Raise e a')
      end
  end.

(** [ChatAgent.run] *)
Definition run (fuel : nat) (a : Agent) : option (Result unit) :=
  match start a with
  | Ok response a' => run_loop fuel (doc_content response) a'
  | Raise e a' => Some (Raise e a')
  end.

(** *** Sessions: sequences of calls on one agent *)

(** [respond] called on each message in turn, stopping at the first
    exception. *)
Fixpoint respond_all (messages : list string) : M unit :=
  match messages with
  | [] => mret ()
  | message :: rest => respond message ;; respond_all rest
  end.

(** [start()] once, then [respond] on each message. *)
Definition session (messages : list string) : M unit :=
  start ;; respond_all messages.

Inductive Op := Start | Respond (message : string).

Definition is_respond (op : Op) : Prop :=
  match op with Start => False | Respond _ => True end.

(** The agent after one call; a caller that catches the exception goes on
    with the state the failed call left. *)
Definition exec_op (op : Op) (a : Agent) : Agent :=
  match op with
  | Start => state_of (start a)
  | Respond message => state_of (respond message a)
  end.

(** The successive values of [message_history] over a sequence of calls,
    the initial one first. *)
Fixpoint transcripts (ops : list Op) (a : Agent) : list (list LLMMessage) :=
  message_history a ::
  match ops with
  | [] => []
  | op :: rest => transcripts rest (exec_op op a)
  end.

End Agent.

(** Every earlier transcript state is a prefix of every later one. *)
Definition only_grows (hs : list (list LLMMessage)) : Prop :=
  ∀ (i j : nat) (hi hj : list LLMMessage),
    (i ≤ j)%nat → hs !! i = Some hi → hs !! j = Some hj → hi `prefix_of` hj.

(** *** Stub capabilities *)

Definition ok_reply : Document unit := {| doc_content := "OK"; metadata := () |}.

(** An LLM that answers "OK" to everything. *)
Definition ok_llm (n : nat) (messages : list LLMMessage) : option (Document unit) :=
  Some ok_reply.

(** An LLM that is unreachable. *)
Definition down_llm (n : nat) (messages : list LLMMessage) : option (Document unit) :=
  None.

(** A handler that recognises no structured action. *)
Definition no_action (n : nat) (msg : string) : option string := None.

(** *** Invariants of a conversation *)

(** The messages after the task messages: the first reply of the LLM, then
    one user message and one reply per turn. *)
Definition dialogue (first_reply : string) (turns : list (string * string))
    : list LLMMessage :=
  {| role := ASSISTANT; content := first_reply |} ::
  flat_map (λ turn, [{| role := USER; content := turn.1 |};
                     {| role := ASSISTANT; content := turn.2 |}]) turns.

(** The transcript is the task messages followed by a dialogue with one
    turn per LLM call after the first. *)
Definition transcript_shape (a : Agent) : Prop :=
  ∃ first_reply turns,
    message_history a = task_messages a ++ dialogue first_reply turns ∧
    length (llm_calls (trace a)) = S (length turns).

(** Every transcript sent to the LLM starts with the task messages, extends
    the one sent before and is part of the current transcript. *)
Definition sent_in_order (a : Agent) : Prop :=
  task_messages a `prefix_of` message_history a ∧
  only_grows (llm_calls (trace a)) ∧
  ∀ m, m ∈ llm_calls (trace a) →
       task_messages a `prefix_of` m ∧ m `prefix_of` message_history a.

(** Where a failed call leaves the agent: after an LLM error the call to the
    LLM is the last thing that happened; after the end of input the prompt
    for the human is, and nothing is left to read. *)
Definition stopped_at (e : Exn) (a : Agent) : Prop :=
  match e with
  | LLMError => ∃ stream messages, last (trace a) = Some (LLMCall stream messages)
  | EOFError =>
      stdin a = [] ∧ last (trace a) = Some (Print (newline +:+ "[blue]Human: "))
  end.

(** [P] survives a call, whether it returns or raises. *)
Definition keeps {A : Type} (P : Agent → Prop) (m : M A) : Prop :=
  ∀ a, P a → P (state_of (m a)).

(** [P] survives a call that returns. *)
Definition keeps_ok {A : Type} (P : Agent → Prop) (m : M A) : Prop :=
  ∀ a x a', P a → m a = Ok x a' → P a'.

(** A call that raises leaves a state in [Q]. *)
Definition raises_in {A : Type} (Q : Exn → Agent → Prop) (m : M A) : Prop :=
  ∀ a e a', m a = Raise e a' → Q e a'.

(** Two states of the agent with the same task messages, transcript and
    transcripts sent to the LLM. *)
Definition same_conversation (a a' : Agent) : Prop :=
  task_messages a' = task_messages a ∧
  message_history a' = message_history a ∧
  llm_calls (trace a') = llm_calls (trace a).

(** A call that leaves the conversation as it is. *)
Definition quiet {A : Type} (m : M A) : Prop :=
  ∀ a, same_conversation a (state_of (m a)).


(** A handler whose result is the exit token "bye". *)
Definition say_bye (n : nat) (msg : string) : option string := Some "bye".

End ChatAgent.

(** ** examples/docqa/chat.py *)
Module DocChat.

(** Exceptions of the statements of [chat] itself: [EOFError] of
    [Prompt.ask] with nothing left to read, [ValueError] of [int(choice)]
    outside the [try], [IndexError] of [collections[int(choice) - 1]].  The
    calls of the agent, of its vector store and of the task, and the lines
    printed, are events: the model describes the runs of [chat] in which
    these calls return. *)
Inductive Exn := EOFError | ValueError | IndexError.

(** Everything [chat] does to the outside, in order. *)
Inductive Event :=
  | CreateAgent                                   (* DocChatAgent(config) *)
  | ClearEmptyCollections                         (* agent.vecdb.clear_empty_collections() *)
  | ListCollections                               (* agent.vecdb.list_collections() *)
  | Printed (text : string)                       (* print(text) *)
  | Asked (prompt : string) (choices : option (list string))
          (default : option string)               (* Prompt.ask(prompt, choices=, default=) *)
  | ListAsked                                     (* get_list_from_user() *)
  | ClearAllCollections                           (* agent.vecdb.clear_all_collections(really=True) *)
  | SetCollection (name : string) (replace : bool) (* agent.vecdb.set_collection(name, replace=) *)
  | SetDocPaths (paths : list string)             (* agent.config.doc_paths = paths *)
  | Ingest                                        (* agent.ingest() *)
  | TaskRun (system_message : string).            (* Task(agent, ..., system_message=).run() *)

(** The answers the user has still to give and what has happened so far. *)
Record World := {
  answers : list string;
  events : list Event;
}.

Inductive Outcome (A : Type) :=
  | Ok (x : A) (w : World)
  | Raise (e : Exn) (w : World).
Arguments Ok {A} x w.
Arguments Raise {A} e w.

Definition state_of {A : Type} (r : Outcome A) : World :=
  match r with Ok _ w => w | Raise _ w => w end.

Definition C (A : Type) : Type := World → Outcome A.

#[global] Instance C_ret : MRet C := λ A x w, Ok x w.
#[global] Instance C_bind : MBind C := λ A B f m w,
  match m w with
  | Ok x w' => f x w'
  | Raise e w' => Raise e w'
  end.

Definition log (e : Event) : C unit := λ w,
  Ok () {| answers := answers w; events := events w ++ [e] |}.

Definition print (text : string) : C unit := log (Printed text).

Definition raise {A : Type} (e : Exn) : C A := λ w, Raise e w.

(** [Prompt.ask(prompt, choices=, default=)]: the next answer, as rich hands
    it out (default and choices already applied). *)
Definition ask (prompt : string) (choices : option (list string))
    (default : option string) : C string := λ w,
  let events := events w ++ [Asked prompt choices default] in
  match answers w with
  | [] => Raise EOFError {| answers := []; events := events |}
  | answer :: rest => Ok answer {| answers := rest; events := events |}
  end.

(** [l[i]] of Python, negative indices counted from the end. *)
Definition py_index (l : list string) (i : Z) : C string :=
  let len := Z.of_nat (length l) in
  let j := if bool_decide (0 ≤ i)%Z then i else (len + i)%Z in
  if bool_decide (0 ≤ j < len)%Z then
    match l !! Z.to_nat j with
    | Some x => mret x
    | None => raise IndexError
    end
  else raise IndexError.

(** [for i, option in enumerate(collections, start=i): print(f"{i}. {option}")] *)
Fixpoint print_options (i : Z) (collections : list string) : C unit :=
  match collections with
  | [] => mret ()
  | option :: rest =>
      print (pretty i +:+ ". " +:+ option) ;; print_options (i + 1) rest
  end.

Definition choice_prompt (n : Z) : string :=
  "Enter 1-" +:+ pretty n +:+ " to select a collection, "
  +:+ "or hit ENTER to create a NEW collection, "
  +:+ "or -1 to DELETE ALL COLLECTIONS".

Definition system_prompt : string :=
  ChatAgent.newline
  +:+ "    [blue] Tell me who I am; complete this sentence: You are..."
  +:+ ChatAgent.newline +:+ "    [or hit enter for default] "
  +:+ ChatAgent.newline +:+ "    [blue] Human"
  +:+ ChatAgent.newline +:+ "    ".

Section Chat.
(** [int(text)]; [None] is its [ValueError]. *)
Variable int : string → option Z.
(** What [clear_empty_collections()] and [list_collections()] return. *)
Variable n_deletes : Z.
Variable collections : list string.
(** [get_list_from_user()] of [langroid.parsing.urls], on the answers still
    to come: the list and the answers it leaves, [None] when the answers run
    out. *)
Variable get_list : list string → option (list string * list string).
(** [config.default_paths] *)
Variable default_paths : list string.
(** [re.sub("you are", "", text, flags=re.IGNORECASE)] *)
Variable without_you_are : string → string.

(** [-1 <= int(choice) <= n], with the [ValueError] of [int] caught. *)
Definition valid_choice (n : Z) (choice : string) : Prop :=
  ∃ k, int choice = Some k ∧ (-1 ≤ k ≤ n)%Z.

(** The [while True] loop that asks for a collection number until the answer
    is a number from [-1] to [n]. *)
Fixpoint ask_choice (n : Z) (remaining : list string) (seen : list Event)
    : Outcome string :=
  let seen := seen ++ [Asked (choice_prompt n) None (Some "0")] in
  match remaining with
  | [] => Raise EOFError {| answers := []; events := seen |}
  | choice :: rest =>
      match int choice with
      | Some k =>
          if decide (-1 ≤ k ≤ n)%Z then Ok choice {| answers := rest; events := seen |}
          else ask_choice n rest seen
      | None => ask_choice n rest seen
      end
  end.

(** The block under [if len(collections) > 0]: the values of
    [collection_name] and [replace_collection] after it. *)
Definition select_collection : C (string * bool) :=
  let n := Z.of_nat (length collections) in
  let delete_str :=
    if bool_decide (0 < n_deletes)%Z
    then "(deleted " +:+ pretty n_deletes +:+ " empty collections)" else "" in
  print ("Found " +:+ pretty n +:+ " collections: " +:+ delete_str) ;;
  print_options 1 collections ;;
  choice ← (λ w, ask_choice n (answers w) (events w));
  collection_name ←
    (if decide (choice = "-1") then
       confirm ← ask "Are you sure you want to delete all collections?"
                   (Some ["y"; "n"]) (Some "n");
       if decide (confirm = "y") then log ClearAllCollections ;; mret "NEW"
       else mret "NEW"
     else mret "NEW");
  k ← match int choice with Some k => mret k | None => raise ValueError end;
  if decide (0 < k)%Z then
    collection_name ← py_index collections (k - 1);
    print ("Using collection " +:+ collection_name) ;;
    choice ← ask "Would you like to replace this collection?"
               (Some ["y"; "n"]) (Some "n");
    mret (collection_name, bool_decide (choice = "y"))
  else mret (collection_name, false).

(** From [print("[blue]Welcome ...")] to the end of [chat]. *)
Definition ingest_and_run (is_new_collection : bool) : C unit :=
  print "[blue]Welcome to the document chatbot!" ;;
  print "[cyan]Enter x or q to quit, or ? for evidence" ;;
  let default_urls_str :=
    if is_new_collection then " (or leave empty for default URLs)" else "" in
  print ("[blue]Enter some URLs or file/dir paths below " +:+ default_urls_str) ;;
  inputs ← (λ w,
    let seen := events w ++ [ListAsked] in
    match get_list (answers w) with
    | Some (inputs, rest) => Ok inputs {| answers := rest; events := seen |}
    | None => Raise EOFError {| answers := []; events := seen |}
    end);
  let inputs :=
    if decide (length inputs = 0%nat)
    then (if is_new_collection then default_paths else inputs) else inputs in
  log (SetDocPaths inputs) ;;
  log Ingest ;;
  system_msg ← ask system_prompt None (Some "a helpful assistant.");
  let system_msg := without_you_are system_msg in
  log (TaskRun ("You are " +:+ system_msg)).

(** [chat(config)] *)
Definition chat : C unit :=
  log CreateAgent ;;
  log ClearEmptyCollections ;;
  log ListCollections ;;
  '(collection_name, replace_collection) ←
    (if decide (0 < length collections)%nat then select_collection
     else mret ("NEW", false));
  '(collection_name, is_new_collection) ←
    (if decide (collection_name = "NEW") then
       name ← ask "What would you like to name the NEW collection?"
                None (Some "doc-chat");
       mret (name, true)
     else mret (collection_name, false));
  log (SetCollection collection_name replace_collection) ;;
  ingest_and_run is_new_collection.

End Chat.

(** The only exception that leaves the call is [EOFError]. *)
Definition only_eof {A : Type} (m : C A) : Prop :=
  ∀ w e w', m w = Raise e w' → e = EOFError.

(** The call adds no event of the kind selected by [pick]. *)
Definition adds_none {A B : Type} (pick : Event → option B) (m : C A) : Prop :=
  ∀ w, omap pick (events (state_of (m w))) = omap pick (events w).

(** The lines printed by [print_options]. *)
Fixpoint printed_options (i : Z) (collections : list string) : list Event :=
  match collections with
  | [] => []
  | option :: rest =>
      Printed (pretty i +:+ ". " +:+ option) :: printed_options (i + 1) rest
  end.

(** A selector that sees neither printed lines nor questions. *)
Definition ignores_dialogue {B : Type} (pick : Event → option B) : Prop :=
  (∀ text, pick (Printed text) = None) ∧
  (∀ prompt choices default, pick (Asked prompt choices default) = None) ∧
  pick ListAsked = None.

Definition pick_set_collection (e : Event) : option (string * bool) :=
  match e with SetCollection name replace => Some (name, replace) | _ => None end.

Definition pick_doc_paths (e : Event) : option (list string) :=
  match e with SetDocPaths paths => Some paths | _ => None end.

Definition pick_clear_all (e : Event) : option unit :=
  match e with ClearAllCollections => Some () | _ => None end.

(** The arguments of the calls of [set_collection], in order. *)
Definition set_collection_calls (evs : list Event) : list (string * bool) :=
  omap pick_set_collection evs.

(** The values assigned to [agent.config.doc_paths], in order. *)
Definition doc_paths_set (evs : list Event) : list (list string) :=
  omap pick_doc_paths evs.

(** [int] on plain decimal numbers with an optional minus sign, for the
    examples. *)
Fixpoint digits (s : string) (acc : Z) : option Z :=
  match s with
  | EmptyString => Some acc
  | String c s' =>
      let d := Ascii.nat_of_ascii c in
      if bool_decide (48 ≤ d ≤ 57)%nat
      then digits s' (10 * acc + Z.of_nat (d - 48))%Z else None
  end.

Definition decimal (s : string) : option Z :=
  match s with
  | EmptyString => None
  | String "-" EmptyString => None
  | String "-" s' => Z.opp <$> digits s' 0
  | _ => digits s 0
  end.

(** [get_list_from_user()] with its default arguments, on ASCII answers, for
    the examples. *)
Definition list_from_user (given : list string)
    : option (list string * list string) :=
  Urls.get_list_from_user Urls.ascii_lower Urls.ascii_strip
    "Enter input (type 'done' or hit return to finish)" None given.

End DocChat.

(** * Lemmas *)

(** ** Input normaliser *)
Module UrlsProofs.
Import Urls.

Section InputNormalizer.
Variable Url : string → option string.
Variable os_path_exists : string → bool.

#[local] Abbreviation is_url := (Urls.is_url Url).
#[local] Abbreviation is_path := (Urls.is_path Url os_path_exists).
#[local] Abbreviation norm_events := (Urls.norm_events Url os_path_exists).
#[local] Abbreviation normalize_item := (Urls.normalize_item Url os_path_exists).
#[local] Abbreviation get_urls_and_paths_run :=
  (Urls.get_urls_and_paths_run Url os_path_exists).
#[local] Abbreviation get_urls_and_paths := (Urls.get_urls_and_paths Url os_path_exists).


Lemma is_path_spec (item : string) :
  is_path item ↔ Url item = None ∧ os_path_exists item = true.
Proof.
  unfold Urls.is_path, Urls.is_url. destruct (Url item) as [u|] eqn:E.
  - rewrite bool_decide_eq_true_2 by eauto. simpl.
    split; [done | intros [? _]; discriminate].
  - rewrite bool_decide_eq_false_2 by (intros [? ?]; done). simpl.
    destruct (os_path_exists item); simpl; split; try done.
    intros [_ ?]; discriminate.
Qed.

(** The loop, from any accumulator: each list is extended by what the
    remaining inputs contribute, in input order. *)
Lemma foldl_normalize_item (inputs : list string) (acc : Normalized) :
  urls (foldl normalize_item acc inputs) = urls acc ++ omap Url inputs ∧
  paths (foldl normalize_item acc inputs) = paths acc ++ filter is_path inputs ∧
  norm_log (foldl normalize_item acc inputs)
    = norm_log acc ++ flat_map norm_events inputs.
Proof.
  revert acc. induction inputs as [|item inputs IH]; intros acc; simpl.
  - by rewrite !app_nil_r.
  - destruct (IH (normalize_item acc item)) as (Hu & Hp & Hl).
    rewrite Hu, Hp, Hl. clear IH Hu Hp Hl.
    unfold Urls.normalize_item, Urls.norm_events.
    destruct (Url item) as [u|] eqn:EU; simpl.
    + rewrite filter_cons_False by (intros [? ?]%is_path_spec; congruence).
      by rewrite <- app_assoc.
    + destruct (os_path_exists item) eqn:EP; simpl.
      * rewrite filter_cons_True by (by apply is_path_spec).
        by rewrite <- !app_assoc.
      * rewrite filter_cons_False by (intros [? ?]%is_path_spec; congruence).
        by rewrite <- !app_assoc.
Qed.

Lemma get_urls_and_paths_run_spec (inputs : list string) :
  urls (get_urls_and_paths_run inputs) = omap Url inputs ∧
  paths (get_urls_and_paths_run inputs) = filter is_path inputs ∧
  norm_log (get_urls_and_paths_run inputs) = flat_map norm_events inputs.
Proof.
  unfold Urls.get_urls_and_paths_run.
  destruct (foldl_normalize_item inputs
              {| urls := []; paths := []; norm_log := [] |}) as (Hu & Hp & Hl).
  by rewrite Hu, Hp, Hl.
Qed.

Lemma norm_log_ExistsCall (inputs : list string) (s : string) :
  ExistsCall s ∈ norm_log (get_urls_and_paths_run inputs) → Url s = None.
Proof.
  destruct (get_urls_and_paths_run_spec inputs) as (_ & _ & ->).
  rewrite list_elem_of_In, in_flat_map. intros (item & _ & Hin).
  unfold Urls.norm_events in Hin. destruct (Url item) eqn:EU; [done|].
  destruct (os_path_exists item); simpl in Hin;
    intuition (try discriminate); congruence.
Qed.



(** C9: an input that validates as a URL and also exists on the filesystem
    is classified as a URL only: its validated URL is in the URL result, the
    string is not in the paths result, and [os.path.exists] is never
    consulted for it. *)
Theorem url_takes_precedence_over_path (inputs : list string) (s u : string) :
  Url s = Some u → os_path_exists s = true → s ∈ inputs →
  u ∈ fst (get_urls_and_paths inputs) ∧
  (s ∉ snd (get_urls_and_paths inputs)) ∧
  (ExistsCall s ∉ norm_log (get_urls_and_paths_run inputs)).
Proof.
  intros HU _ Hs.
  destruct (get_urls_and_paths_run_spec inputs) as (Hu & Hp & _).
  unfold Urls.get_urls_and_paths. simpl. rewrite Hu, Hp. split_and!.
  - apply list_elem_of_omap. eauto.
  - intros [[? _]%is_path_spec _]%list_elem_of_filter. congruence.
  - intros Hc. apply norm_log_ExistsCall in Hc. congruence.
Qed.

End InputNormalizer.

(** The scenario of the specification. *)
Example get_urls_and_paths_scenario :
  get_urls_and_paths https_only everything_exists ["https://example.com"; "./local_dir"]
  = (["https://example.com"], ["./local_dir"]).
Proof. reflexivity. Qed.


Lemma url_takes_precedence_over_path_witness :
  https_only "https://example.com" = Some "https://example.com" ∧
  everything_exists "https://example.com" = true ∧
  "https://example.com"
    ∈ fst (get_urls_and_paths https_only everything_exists
             ["./local_dir"; "https://example.com"]) ∧
  ("https://example.com"
    ∉ snd (get_urls_and_paths https_only everything_exists
             ["./local_dir"; "https://example.com"])) ∧
  (ExistsCall "https://example.com"
    ∉ norm_log (get_urls_and_paths_run https_only everything_exists
                  ["./local_dir"; "https://example.com"])).
Proof.
  split; [reflexivity|]. split; [reflexivity|].
  apply (url_takes_precedence_over_path https_only everything_exists
           ["./local_dir"; "https://example.com"]
           "https://example.com" "https://example.com");
    [reflexivity | reflexivity |].
  apply list_elem_of_In. simpl. auto.
Defined.

(** ** Link crawler *)

Lemma fetched_app (t1 t2 : list CrawlEvent) : fetched (t1 ++ t2) = fetched t1 ++ fetched t2.
Proof. apply omap_app. Qed.

Lemma descended_app (t1 t2 : list CrawlEvent) :
  descended (t1 ++ t2) = descended t1 ++ descended t2.
Proof. apply omap_app. Qed.

(** The loop returns when every call it makes returns. *)
Lemma crawl_links_returns (rec : string → Crawl → CrawlResult) (urls : list string) :
  (∀ link c, ∃ c', rec link c = Returned c') →
  ∀ c, ∃ c', crawl_links rec urls c = Returned c'.
Proof.
  intros Hrec. induction urls as [|link rest IH]; intros c; simpl; [eauto|].
  destruct (decide (link ∈ visited c)); [apply IH|].
  destruct (Hrec link (log_event (Descend link (visited c)) c)) as [c' ->].
  apply IH.
Qed.

(** The loop keeps the invariant of the calls it makes, also when one of
    them raises. *)
Lemma crawl_links_spec (rec : string → Crawl → CrawlResult) (urls : list string) :
  (∀ link c, call_spec link c (rec link c)) →
  ∀ c, loop_spec c (crawl_links rec urls c).
Proof.
  intros Hrec. induction urls as [|link rest IH]; intros c; simpl.
  - exists []. rewrite app_nil_r. simpl.
    split_and!; [done | set_solver | done | done | constructor | set_solver | constructor].
  - destruct (decide (link ∈ visited c)) as [Hin|Hnin]; [by apply IH|].
    pose proof (Hrec link (log_event (Descend link (visited c)) c)) as H1.
    destruct (rec link (log_event (Descend link (visited c)) c)) as [c1|e c1].
    + destruct H1 as (ev1 & Ht1 & Hv1 & _ & Hf1 & Hn1 & Hd1 & Hw1).
      specialize (Hf1 c1 eq_refl).
      destruct (IH c1) as (ev2 & Ht2 & Hv2 & Hp2 & Hf2 & Hn2 & Hd2 & Hw2).
      simpl in Ht1, Hv1, Hd1.
      exists (Descend link (visited c) :: ev1 ++ ev2).
      assert (Hfe : fetched (Descend link (visited c) :: ev1 ++ ev2)
                    = link :: descended ev1 ++ fetched ev2).
      { change (fetched (Descend link (visited c) :: ev1 ++ ev2))
          with (fetched (ev1 ++ ev2)).
        by rewrite fetched_app, Hf1. }
      assert (Hde : descended (Descend link (visited c) :: ev1 ++ ev2)
                    = link :: descended ev1 ++ descended ev2).
      { change (descended (Descend link (visited c) :: ev1 ++ ev2))
          with (link :: descended (ev1 ++ ev2)).
        by rewrite descended_app. }
      rewrite Hfe, Hde. split_and!.
      * rewrite Ht2, Ht1, <- !app_assoc. done.
      * rewrite Hv2, Hv1, Hf1. set_solver.
      * apply prefix_cons, prefix_app, Hp2.
      * intros c' Hret. by rewrite (Hf2 c' Hret).
      * apply NoDup_cons. split.
        -- rewrite elem_of_app. intros [Hx|Hx].
           ++ by destruct (Hd1 _ Hx).
           ++ apply Hd2 in Hx. rewrite Hv1, Hf1 in Hx. set_solver.
        -- apply NoDup_app. split_and!; [done| |done].
           intros u Hu1 Hu2. apply Hd2 in Hu2. rewrite Hv1, Hf1 in Hu2. set_solver.
      * intros u [->|Hu]%elem_of_cons; [done|].
        apply elem_of_app in Hu as [Hu|Hu]; [by destruct (Hd1 _ Hu)|].
        apply Hd2 in Hu. rewrite Hv1 in Hu. set_solver.
      * constructor; [done|]. by apply Forall_app.
    + destruct H1 as (ev1 & Ht1 & Hv1 & Hp1 & _ & Hn1 & Hd1 & Hw1).
      simpl in Ht1, Hv1, Hd1 |- *.
      exists (Descend link (visited c) :: ev1). cbn [crawl_state].
      change (fetched (Descend link (visited c) :: ev1)) with (fetched ev1).
      change (descended (Descend link (visited c) :: ev1))
        with (link :: descended ev1).
      split_and!.
      * by rewrite Ht1, <- app_assoc.
      * done.
      * done.
      * done.
      * apply NoDup_cons. split; [|done]. intros Hx. by destruct (Hd1 _ Hx).
      * intros u [->|Hu]%elem_of_cons; [done|]. by destruct (Hd1 _ Hu).
      * by constructor.
Qed.


Section Crawler.
Context {Page : Type}.
Variable requests_get : nat → string → Response Page.
Variable find_all_hrefs : Page → option (list string).
Variable urljoin : string → string → option string.
Variable renders : string → bool.

#[local] Abbreviation find_urls_rec :=
  (Urls.find_urls_rec requests_get find_all_hrefs urljoin renders).
#[local] Abbreviation find_urls :=
  (Urls.find_urls requests_get find_all_hrefs urljoin renders).
#[local] Abbreviation well_behaved :=
  (Urls.well_behaved requests_get find_all_hrefs urljoin renders).
#[local] Abbreviation leaf_ok :=
  (Urls.leaf_ok requests_get find_all_hrefs urljoin renders).
#[local] Abbreviation print := (Urls.print renders).

(** When nothing but requests fails, a stack deeper than the depth bound
    is enough for the call to return. *)
Lemma find_urls_rec_returns (stack : nat) :
  well_behaved →
  ∀ url depth max_depth c,
    (Z.to_nat (max_depth - depth) < stack)%nat →
    ∃ c', find_urls_rec stack url depth max_depth c = Returned c'.
Proof.
  intros (Hget & Hparse & Hjoin & Hprint).
  induction stack as [|stack IH]; intros url depth max_depth c Hstack; [lia|].
  simpl. pose proof (Hget (nfetch c) url) as Hg.
  destruct (requests_get (nfetch c) url) as [content| |]; [| |done].
  - destruct (Hparse content) as [hrefs ->].
    assert (is_Some (mapM (urljoin url) hrefs)) as [urls ->].
    { apply mapM_is_Some, Forall_forall. intros href _. apply Hjoin. }
    destruct (Z.ltb_spec depth max_depth) as [Hlt|Hge]; [|eauto].
    apply crawl_links_returns. intros link c'. apply IH. lia.
  - unfold Urls.print. rewrite Hprint. eauto.
Qed.

Lemma find_urls_rec_spec (stack : nat) :
  ∀ url depth max_depth c,
    call_spec url c (find_urls_rec stack url depth max_depth c).
Proof.
  assert (Hone : ∀ url c rest n,
            Forall wf_event rest → fetched rest = [] → descended rest = [] →
            ∀ r, crawl_state r
                 = {| visited := {[url]} ∪ visited c; nfetch := n;
                      trace := trace c ++ Fetch url ({[url]} ∪ visited c) :: rest |} →
                 call_spec url c r).
  { intros url c rest n Hw Hf Hd r Hr.
    exists (Fetch url ({[url]} ∪ visited c) :: rest). rewrite Hr.
    change (fetched (Fetch url ({[url]} ∪ visited c) :: rest))
      with (url :: fetched rest).
    change (descended (Fetch url ({[url]} ∪ visited c) :: rest))
      with (descended rest).
    rewrite Hf, Hd. simpl.
    split_and!; [done | set_solver | done | done | constructor | set_solver |].
    constructor; [simpl; set_solver | done]. }
  induction stack as [|stack IH]; intros url depth max_depth c.
  { exists []. simpl. rewrite app_nil_r.
    split_and!; [done | set_solver | apply prefix_nil | done | constructor
                | set_solver | constructor]. }
  simpl.
  destruct (requests_get (nfetch c) url) as [content| |].
  - destruct (find_all_hrefs content) as [hrefs|];
      [|by apply (Hone url c [] (S (nfetch c)))].
    destruct (mapM (urljoin url) hrefs) as [urls|];
      [|by apply (Hone url c [] (S (nfetch c)))].
    destruct (depth <? max_depth)%Z;
      [|by apply (Hone url c [] (S (nfetch c)))].
    match goal with
    | |- call_spec _ _ (crawl_links ?rec ?urls ?c2) =>
        destruct (crawl_links_spec rec urls (λ link c1, IH link _ _ c1) c2)
          as (ev & Ht & Hv & Hp & Hf & Hn & Hd & Hw);
        set (r := crawl_links rec urls c2) in *
    end.
    simpl in Ht, Hv, Hd.
    exists (Fetch url ({[url]} ∪ visited c) :: ev).
    change (fetched (Fetch url ({[url]} ∪ visited c) :: ev))
      with (url :: fetched ev).
    change (descended (Fetch url ({[url]} ∪ visited c) :: ev))
      with (descended ev).
    split_and!.
    + by rewrite Ht, <- app_assoc.
    + rewrite Hv. set_solver.
    + by apply prefix_cons.
    + intros c' Hret. by rewrite (Hf c' Hret).
    + done.
    + intros u Hu. apply Hd in Hu. set_solver.
    + constructor; [simpl; set_solver | done].
  - unfold Urls.print. destruct (renders (failure_line url)).
    + apply (Hone url c [Print (failure_line url)] (S (nfetch c)));
        [by repeat constructor | done | done |].
      unfold log_event. simpl. by rewrite <- app_assoc.
    + by apply (Hone url c [] (S (nfetch c))).
  - by apply (Hone url c [] (S (nfetch c))).
Qed.


(** A call at or beyond the depth bound requests its own URL and stops,
    however it ends. *)
Lemma find_urls_rec_leaf (stack : nat) (url : string) (depth max_depth : Z)
    (c : Crawl) :
  (max_depth ≤ depth)%Z →
  ∃ r, find_urls_rec (S stack) url depth max_depth c = r ∧
       visited (crawl_state r) = {[url]} ∪ visited c ∧
       nfetch (crawl_state r) = S (nfetch c) ∧
       fetched (trace (crawl_state r)) = fetched (trace c) ++ [url] ∧
       descended (trace (crawl_state r)) = descended (trace c) ∧
       ((∃ c', r = Returned c') ↔ leaf_ok (nfetch c) url).
Proof.
  intros Hdepth. eexists. split; [reflexivity|].
  unfold Urls.leaf_ok. simpl.
  destruct (requests_get (nfetch c) url) as [content| |].
  - destruct (find_all_hrefs content) as [hrefs|].
    + destruct (mapM (urljoin url) hrefs) as [urls|] eqn:Ejoin.
      * destruct (Z.ltb_spec depth max_depth) as [?|_]; [lia|]. simpl.
        rewrite fetched_app, descended_app. simpl. rewrite app_nil_r.
        split_and!; try done. split; [|eauto].
        intros _. exists hrefs. split; [done|]. rewrite Ejoin. eauto.
      * simpl. rewrite fetched_app, descended_app. simpl. rewrite app_nil_r.
        split_and!; try done. split; [by intros [? ?]|].
        intros (hrefs' & [= <-] & [? Hj]). congruence.
    + simpl. rewrite fetched_app, descended_app. simpl. rewrite app_nil_r.
      split_and!; try done. split; [by intros [? ?]|].
      by intros (hrefs' & ? & _).
  - unfold Urls.print. destruct (renders (failure_line url)); simpl.
    + rewrite !fetched_app, !descended_app. simpl. rewrite !app_nil_r.
      split_and!; try done. split; [done|eauto].
    + rewrite !fetched_app, !descended_app. simpl. rewrite !app_nil_r.
      split_and!; try done. split; [by intros [? ?]|done].
  - simpl. rewrite fetched_app, descended_app. simpl. rewrite app_nil_r.
    split_and!; try done. split; [by intros [? ?]|done].
Qed.


(** C7: in any crawl, however it ends, every request is for a URL that was
    put in the visited-set before the request, every recursive descent is
    into a URL that was not in the visited-set when the loop tested it, each
    recursive call makes at most one request (for its own URL) and exactly
    one when the crawl returns, no URL is descended into twice, no URL is
    requested twice, and no URL of the visited-set the crawl started with is
    descended into.  When nothing but requests fails and the stack is deeper
    than the depth bound, the crawl returns. *)
Theorem find_urls_fetches_each_url_once (stack : nat) (url : string)
    (visited0 : option (gset string)) (depth max_depth : Z) :
  ∃ r, find_urls stack url visited0 depth max_depth = r ∧
       Forall wf_event (trace (crawl_state r)) ∧
       fetched (trace (crawl_state r))
         `prefix_of` url :: descended (trace (crawl_state r)) ∧
       (∀ c, r = Returned c → fetched (trace c) = url :: descended (trace c)) ∧
       NoDup (descended (trace (crawl_state r))) ∧
       NoDup (fetched (trace (crawl_state r))) ∧
       (∀ u, u ∈ descended (trace (crawl_state r)) → u ∉ default ∅ visited0) ∧
       visited (crawl_state r)
         = default ∅ visited0 ∪ list_to_set (fetched (trace (crawl_state r))) ∧
       (well_behaved → (Z.to_nat (max_depth - depth) < stack)%nat →
        ∃ c, r = Returned c).
Proof.
  eexists. split; [reflexivity|].
  destruct (find_urls_rec_spec stack url depth max_depth
              {| visited := default ∅ visited0; nfetch := 0; trace := [] |})
    as (ev & Ht & Hv & Hp & Hf & Hn & Hd & Hw).
  fold (find_urls stack url visited0 depth max_depth) in *.
  simpl in Ht, Hv, Hd. rewrite Ht. split_and!; try done.
  - intros c Hret. specialize (Hf c Hret). rewrite Hret in Ht. simpl in Ht.
    by rewrite Ht.
  - assert (Hnd : NoDup (url :: descended ev)).
    { apply NoDup_cons. split; [|done]. intros Hu. by destruct (Hd _ Hu). }
    destruct Hp as [k Hk]. rewrite Hk in Hnd. by apply NoDup_app in Hnd as [? _].
  - intros u Hu. by destruct (Hd _ Hu).
  - intros Hwb Hstack. by apply find_urls_rec_returns.
Qed.


End Crawler.

Lemma site_well_behaved : well_behaved site site_hrefs site_join prints_all.
Proof.
  split_and!.
  - intros n url. unfold site. by repeat case_decide.
  - intros content. by eexists.
  - intros base href. by eexists.
  - done.
Qed.

(** On the three-page site the dead link "a" is requested once and the
    crawl goes on to its sibling "b". *)
Example find_urls_site :
  (λ c, (fetched (trace c), elements (visited c)))
    (crawl_state (find_urls site site_hrefs site_join prints_all 8 "http://s/" None 0 1))
  = (["http://s/"; "http://s/a"; "http://s/b"],
     elements ({["http://s/"; "http://s/a"; "http://s/b"]} : gset string)).
Proof. vm_compute. reflexivity. Qed.




(** ** Lists typed in by the user *)

Section ListFromUser.
Variable str_lower : string → string.
Variable str_strip : string → string.

#[local] Abbreviation is_done := (Urls.is_done str_lower).
#[local] Abbreviation ask_loop := (Urls.ask_loop str_lower str_strip).
#[local] Abbreviation get_list_from_user :=
  (Urls.get_list_from_user str_lower str_strip).

(** The loop over lines that are all kept, ended by a line that stops it,
    when the count [i] does not reach [n] on the way. *)
Lemma ask_loop_until_done (prompt : string) (n : option Z) (stored : list string)
    (t : string) (rest : list string) :
  Forall (λ s, ¬ is_done s) stored →
  is_done t →
  ∀ (input_set : gset string) (i : Z) (shown : list string),
    (∀ k, n = Some k → (k ≤ i ∨ i + Z.of_nat (length stored) < k)%Z) →
    ∃ r, ask_loop prompt n (stored ++ t :: rest) input_set i shown = Some r ∧
         asked_set r = list_to_set (str_strip <$> stored) ∪ input_set ∧
         asked_rest r = rest ∧
         length (asked_prompts r) = (length shown + S (length stored))%nat.
Proof.
  intros Hstored Ht. induction Hstored as [|s stored Hs Hstored IH];
    intros input_set i shown Hn; simpl.
  - rewrite decide_True by done. eexists. split; [reflexivity|]. simpl.
    split_and!; [set_solver | done | rewrite length_app; simpl; lia].
  - rewrite decide_False by done.
    rewrite decide_False.
    2:{ intros Heq. destruct (Hn _ (eq_sym Heq)) as [?|?]; simpl in *; lia. }
    destruct (IH ({[str_strip s]} ∪ input_set) (i + 1)%Z
                (shown ++ ["[blue]" +:+ prompt])) as (r & -> & Hset & Hrest & Hlen).
    { intros k Hk. destruct (Hn k Hk) as [?|?]; simpl in *; lia. }
    exists r. split; [done|]. rewrite Hset, Hrest, Hlen, length_app. simpl.
    split_and!; [set_solver | done | lia].
Qed.

(** The loop over [k - i] lines that are all kept: the count stops it. *)
Lemma ask_loop_count (prompt : string) (stored rest : list string) :
  Forall (λ s, ¬ is_done s) stored →
  stored ≠ [] →
  ∀ (input_set : gset string) (i : Z) (shown : list string),
    ∃ r, ask_loop prompt (Some (i + Z.of_nat (length stored))%Z) (stored ++ rest)
           input_set i shown = Some r ∧
         asked_set r = list_to_set (str_strip <$> stored) ∪ input_set ∧
         asked_rest r = rest ∧
         length (asked_prompts r) = (length shown + length stored)%nat.
Proof.
  intros Hstored. induction Hstored as [|s stored Hs Hstored IH];
    intros Hne input_set i shown; [done|]. simpl.
  rewrite decide_False by done.
  destruct stored as [|s' stored'].
  - simpl. rewrite decide_True by (f_equal; lia).
    eexists. split; [reflexivity|]. simpl.
    split_and!; [set_solver | done | rewrite length_app; simpl; lia].
  - rewrite decide_False by (intros [= Heq]; simpl in Heq; lia).
    destruct (IH ltac:(done) ({[str_strip s]} ∪ input_set) (i + 1)%Z
                (shown ++ ["[blue]" +:+ prompt])) as (r & Hr & Hset & Hrest & Hlen).
    replace (i + 1 + Z.of_nat (length (s' :: stored')))%Z
      with (i + Z.of_nat (length (s :: s' :: stored')))%Z in Hr by (simpl; lia).
    exists r. split; [exact Hr|]. rewrite Hset, Hrest, Hlen, length_app.
    split_and!; [set_solver | done | simpl; lia].
Qed.

(** Once the count has passed [k], the test [i == n] cannot succeed. *)
Lemma ask_loop_count_passed (prompt : string) (k : Z) (answers : list string) :
  ∀ (input_set : gset string) (i : Z) (shown : list string),
    (k ≤ i)%Z →
    ask_loop prompt (Some k) answers input_set i shown
    = ask_loop prompt None answers input_set i shown.
Proof.
  induction answers as [|s answers IH]; intros input_set i shown Hi; [done|].
  simpl. destruct (decide (str_lower s = "done" ∨ s = "")); [done|].
  destruct (decide (Some (i + 1)%Z = Some k)) as [[= Heq]|_]; [lia|].
  destruct (decide (Some (i + 1)%Z = None)) as [?|_]; [done|].
  apply IH. lia.
Qed.

Lemma ask_loop_exhausted (prompt : string) (n : option Z) (answers : list string) :
  Forall (λ s, ¬ is_done s) answers →
  ∀ (input_set : gset string) (i : Z) (shown : list string),
    (∀ k, n = Some k → (k ≤ i ∨ i + Z.of_nat (length answers) < k)%Z) →
    ask_loop prompt n answers input_set i shown = None.
Proof.
  induction 1 as [|s answers Hs Hanswers IH]; intros input_set i shown Hn; [done|].
  simpl. rewrite decide_False by done.
  rewrite decide_False.
  2:{ intros Heq. destruct (Hn _ (eq_sym Heq)) as [?|?]; simpl in *; lia. }
  apply IH. intros k Hk. destruct (Hn k Hk) as [?|?]; simpl in *; lia.
Qed.

Lemma elements_stripped (stored : list string) (x : string) :
  x ∈ elements (list_to_set (str_strip <$> stored) ∪ (∅ : gset string))
  ↔ ∃ s, s ∈ stored ∧ x = str_strip s.
Proof.
  rewrite elem_of_elements, elem_of_union, elem_of_list_to_set, list_elem_of_fmap.
  split.
  - intros [(s & -> & Hs)|Hx]; [eauto | set_solver].
  - intros (s & Hs & ->). left. eauto.
Qed.

(** X1: when the user enters lines that are all kept and then a line that
    ends the input ("done" in any case, or an empty line), and the count [n]
    is absent, not positive or larger than the number of lines kept, the
    result holds exactly the stripped forms of the lines kept, each once, and
    the lines after the ending one are left unread. *)
Theorem get_list_from_user_until_done (prompt : string) (n : option Z)
    (stored : list string) (t : string) (rest : list string) :
  Forall (λ s, ¬ is_done s) stored →
  is_done t →
  (∀ k, n = Some k → (k ≤ 0 ∨ Z.of_nat (length stored) < k)%Z) →
  ∃ l, get_list_from_user prompt n (stored ++ t :: rest) = Some (l, rest) ∧
       NoDup l ∧
       ∀ x, x ∈ l ↔ ∃ s, s ∈ stored ∧ x = str_strip s.
Proof.
  intros Hstored Ht Hn.
  destruct (ask_loop_until_done prompt n stored t rest Hstored Ht ∅ 0 [])
    as (r & Hr & Hset & Hrest & _).
  { intros k Hk. destruct (Hn k Hk); lia. }
  unfold Urls.get_list_from_user. rewrite Hr, Hset, Hrest.
  eexists. split; [reflexivity|]. split; [apply NoDup_elements|].
  apply elements_stripped.
Qed.

(** X2: with a count [n >= 1], once [n] lines have been kept the function
    returns without asking again: the result holds the stripped forms of
    those [n] lines, each once, so at most [n] strings, and whatever follows
    is left unread. *)
Theorem get_list_from_user_count (prompt : string) (k : Z)
    (stored rest : list string) :
  (1 ≤ k)%Z → Z.of_nat (length stored) = k →
  Forall (λ s, ¬ is_done s) stored →
  ∃ l, get_list_from_user prompt (Some k) (stored ++ rest) = Some (l, rest) ∧
       NoDup l ∧
       (∀ x, x ∈ l ↔ ∃ s, s ∈ stored ∧ x = str_strip s) ∧
       (Z.of_nat (length l) ≤ k)%Z.
Proof.
  intros Hk Hlen Hstored.
  assert (Hne : stored ≠ []) by (intros ->; simpl in Hlen; lia).
  destruct (ask_loop_count prompt stored rest Hstored Hne ∅ 0 [])
    as (r & Hr & Hset & Hrest & _).
  replace (0 + Z.of_nat (length stored))%Z with k in Hr by lia.
  unfold Urls.get_list_from_user. rewrite Hr, Hset, Hrest.
  eexists. split; [reflexivity|]. split_and!.
  - apply NoDup_elements.
  - apply elements_stripped.
  - rewrite <- Hlen. apply inj_le.
    rewrite <- (length_fmap str_strip stored). apply submseteq_length.
    apply NoDup_submseteq; [apply NoDup_elements|].
    intros x (s & Hs & ->)%elements_stripped. apply list_elem_of_fmap. eauto.
Qed.

(** X3: a count that is zero or negative never stops the loop: the function
    behaves as with [n = None]. *)
Theorem get_list_from_user_nonpositive_count (prompt : string) (k : Z)
    (answers : list string) :
  (k ≤ 0)%Z →
  get_list_from_user prompt (Some k) answers
  = get_list_from_user prompt None answers.
Proof.
  intros Hk. unfold Urls.get_list_from_user.
  by rewrite ask_loop_count_passed.
Qed.

(** X4: when the answers run out before a line ends the input and before
    the count is reached, the exception of [Prompt.ask] leaves the function:
    no partial list is returned. *)
Theorem get_list_from_user_exhausted (prompt : string) (n : option Z)
    (answers : list string) :
  Forall (λ s, ¬ is_done s) answers →
  (∀ k, n = Some k → (k ≤ 0 ∨ Z.of_nat (length answers) < k)%Z) →
  get_list_from_user prompt n answers = None.
Proof.
  intros Hanswers Hn. unfold Urls.get_list_from_user.
  rewrite ask_loop_exhausted; [done..|].
  intros k Hk. destruct (Hn k Hk); lia.
Qed.

End ListFromUser.

Ltac not_done := intros [Hd|Hd]; vm_compute in Hd; discriminate.

Lemma get_list_from_user_until_done_witness :
  ∃ l, Urls.get_list_from_user ascii_lower ascii_strip "Enter input" (Some 5%Z)
         ([" b"; "a"; "b "] ++ "DONE" :: ["z"]) = Some (l, ["z"]) ∧
       NoDup l ∧
       ∀ x, x ∈ l ↔ ∃ s, s ∈ [" b"; "a"; "b "] ∧ x = ascii_strip s.
Proof.
  apply (get_list_from_user_until_done ascii_lower ascii_strip "Enter input"
           (Some 5%Z) [" b"; "a"; "b "] "DONE" ["z"]).
  - repeat constructor; not_done.
  - left. reflexivity.
  - intros k [= <-]. right. simpl. lia.
Defined.

Lemma get_list_from_user_count_witness :
  ∃ l, Urls.get_list_from_user ascii_lower ascii_strip "Enter input" (Some 2%Z)
         (["a"; " a"] ++ ["b"; "done"]) = Some (l, ["b"; "done"]) ∧
       NoDup l ∧
       (∀ x, x ∈ l ↔ ∃ s, s ∈ ["a"; " a"] ∧ x = ascii_strip s) ∧
       (Z.of_nat (length l) ≤ 2)%Z.
Proof.
  apply (get_list_from_user_count ascii_lower ascii_strip "Enter input" 2
           ["a"; " a"] ["b"; "done"]).
  - lia.
  - reflexivity.
  - repeat constructor; not_done.
Defined.

Lemma get_list_from_user_nonpositive_count_witness :
  Urls.get_list_from_user ascii_lower ascii_strip "Enter input" (Some 0%Z) ["a"; "b"; ""]
  = Urls.get_list_from_user ascii_lower ascii_strip "Enter input" None ["a"; "b"; ""].
Proof.
  apply (get_list_from_user_nonpositive_count ascii_lower ascii_strip
           "Enter input" 0 ["a"; "b"; ""]).
  lia.
Defined.

Lemma get_list_from_user_exhausted_witness :
  Urls.get_list_from_user ascii_lower ascii_strip "Enter input" (Some 3%Z) ["a"; "b"]
  = None.
Proof.
  apply (get_list_from_user_exhausted ascii_lower ascii_strip "Enter input"
           (Some 3%Z) ["a"; "b"]).
  - repeat constructor; not_done.
  - intros k [= <-]. right. simpl. lia.
Defined.

(** ** GitHub organisation and user *)

Lemma split_length (c : Ascii.ascii) (s : string) :
  length (split c s) = S (count_char c s).
Proof.
  induction s as [|c' s IH]; [done|]. simpl.
  destruct (decide (c' = c)); simpl; [by rewrite IH|].
  destruct (split c s) as [|part parts]; simpl in *; [lia | done].
Qed.

Lemma split_no_sep (c : Ascii.ascii) (s : string) :
  count_char c s = 0%nat → split c s = [s].
Proof.
  induction s as [|c' s IH]; [done|]. simpl.
  destruct (decide (c' = c)); simpl; [done|].
  intros Hs. by rewrite (IH Hs).
Qed.

Lemma split_app_sep (c : Ascii.ascii) (s1 s2 : string) :
  count_char c s1 = 0%nat →
  split c (s1 +:+ String c s2) = s1 :: split c s2.
Proof.
  induction s1 as [|c' s1 IH]; simpl.
  - intros _. by rewrite decide_True.
  - destruct (decide (c' = c)); simpl; [done|].
    intros Hs. by rewrite (IH Hs).
Qed.

Lemma lstrip_cons_eq (c : Ascii.ascii) (s : string) :
  lstrip c (String c s) = lstrip c s.
Proof. simpl. by rewrite decide_True. Qed.

Lemma lstrip_cons_ne (c c' : Ascii.ascii) (s : string) :
  c' ≠ c → lstrip c (String c' s) = String c' s.
Proof. intros Hc. simpl. by rewrite decide_False. Qed.

Section OrgUser.
Variable urlparse_path : string → option string.

#[local] Abbreviation org_user_from_github := (Urls.org_user_from_github urlparse_path).

(** X5: for a URL whose path is [/org/user], with a non-empty [org] and no
    further slash, the result is [org-user]. *)
Theorem org_user_from_github_org_user (url org user : string) :
  urlparse_path url = Some ("/" +:+ org +:+ "/" +:+ user) →
  org ≠ "" →
  count_char "/" org = 0%nat →
  count_char "/" user = 0%nat →
  org_user_from_github url = Some (org +:+ "-" +:+ user).
Proof.
  intros Hpath Hne Horg Huser. unfold Urls.org_user_from_github. rewrite Hpath.
  change ("/" +:+ org +:+ "/" +:+ user)
    with (String "/" (org +:+ String "/" user)).
  rewrite lstrip_cons_eq.
  destruct org as [|c org]; [done|]. simpl in Horg.
  destruct (decide (c = "/"%char)) as [|Hc]; [done|].
  change (String c org +:+ String "/" user)
    with (String c (org +:+ String "/" user)).
  rewrite lstrip_cons_ne by done.
  change (String c (org +:+ String "/" user))
    with (String c org +:+ String "/" user).
  rewrite split_app_sep by (simpl; by rewrite decide_False).
  by rewrite split_no_sep.
Qed.

(** X6: on a URL that parses, the function returns a value exactly when the
    path, without its leading slashes, holds one slash; in every other case
    (no slash, a trailing slash, deeper paths) the unpacking raises. *)
Theorem org_user_from_github_returns_iff (url path : string) :
  urlparse_path url = Some path →
  is_Some (org_user_from_github url)
  ↔ count_char "/" (lstrip "/" path) = 1%nat.
Proof.
  intros Hpath. unfold Urls.org_user_from_github. rewrite Hpath.
  pose proof (split_length "/" (lstrip "/" path)) as Hlen.
  destruct (split "/" (lstrip "/" path)) as [|org [|user [|x parts]]];
    simpl in Hlen.
  - lia.
  - split; [by intros [? ?] | lia].
  - split; [lia | eauto].
  - split; [by intros [? ?] | lia].
Qed.

End OrgUser.

Lemma org_user_from_github_org_user_witness :
  Urls.org_user_from_github path_after_host "https://github.com/langroid/langroid-examples"
  = Some "langroid-langroid-examples".
Proof.
  apply (org_user_from_github_org_user path_after_host
           "https://github.com/langroid/langroid-examples"
           "langroid" "langroid-examples"); [reflexivity | done | reflexivity..].
Defined.

Lemma org_user_from_github_returns_iff_witness :
  is_Some (Urls.org_user_from_github path_after_host "https://github.com/langroid/langroid/")
  ↔ count_char "/" (lstrip "/" "/langroid/langroid/") = 1%nat.
Proof.
  apply (org_user_from_github_returns_iff path_after_host
           "https://github.com/langroid/langroid/" "/langroid/langroid/").
  reflexivity.
Defined.

(** ** Link crawler: how far one crawl reaches *)

Section CrawlerReach.
Context {Page : Type}.
Variable requests_get : nat → string → Response Page.
Variable find_all_hrefs : Page → option (list string).
Variable urljoin : string → string → option string.
Variable renders : string → bool.

#[local] Abbreviation find_urls_rec :=
  (Urls.find_urls_rec requests_get find_all_hrefs urljoin renders).
#[local] Abbreviation find_urls :=
  (Urls.find_urls requests_get find_all_hrefs urljoin renders).
#[local] Abbreviation leaf_ok :=
  (Urls.leaf_ok requests_get find_all_hrefs urljoin renders).

(** The loop over the links of a page one level above the depth bound
    returns and puts every link in the visited-set, when each linked page
    either fails to be fetched with a failure line that prints, or is
    fetched, parses and has hrefs that join. *)
Lemma crawl_links_leaves (stack : nat) (depth max_depth : Z) (urls : list string) :
  (max_depth ≤ depth)%Z →
  (∀ n u, u ∈ urls → leaf_ok n u) →
  ∀ c, ∃ c',
    crawl_links (λ l, find_urls_rec (S stack) l depth max_depth) urls c
    = Returned c' ∧
    visited c' = visited c ∪ list_to_set urls.
Proof.
  intros Hdepth. induction urls as [|link rest IH]; intros Hok c; cbn [crawl_links].
  - eexists. split; [reflexivity|]. set_solver.
  - assert (Hrest : ∀ n u, u ∈ rest → leaf_ok n u).
    { intros n u Hu. apply Hok. by apply elem_of_cons; right. }
    destruct (decide (link ∈ visited c)) as [Hin|Hnin].
    + destruct (IH Hrest c) as (c' & -> & Hv). exists c'. split; [done|].
      rewrite Hv. set_solver.
    + destruct (find_urls_rec_leaf requests_get find_all_hrefs urljoin renders
                  stack link depth max_depth
                  (log_event (Descend link (visited c)) c) Hdepth)
        as (r & Hr & Hv1 & _ & _ & _ & Hret).
      destruct Hret as [_ [c1 ->]]; [apply Hok; by apply elem_of_cons; left|].
      rewrite Hr. destruct (IH Hrest c1) as (c' & -> & Hv). exists c'.
      split; [done|]. rewrite Hv. simpl in Hv1. rewrite Hv1. simpl. set_solver.
Qed.

(** X7: a call whose [depth] has reached [max_depth] makes one request, for
    its own URL, and no recursive call, and leaves the visited-set it was
    given with that URL added, however it ends.  It returns exactly when the
    request fails and the failure line prints, or the request succeeds, the
    page parses and every href of it joins with the URL. *)
Theorem find_urls_at_depth_bound (stack : nat) (url : string)
    (visited0 : option (gset string)) (depth max_depth : Z) :
  (max_depth ≤ depth)%Z →
  ∃ r, find_urls (S stack) url visited0 depth max_depth = r ∧
       visited (crawl_state r) = {[url]} ∪ default ∅ visited0 ∧
       fetched (trace (crawl_state r)) = [url] ∧
       descended (trace (crawl_state r)) = [] ∧
       ((∃ c, r = Returned c) ↔ leaf_ok 0 url).
Proof.
  intros Hdepth. unfold Urls.find_urls.
  destruct (find_urls_rec_leaf requests_get find_all_hrefs urljoin renders
              stack url depth max_depth
              {| visited := default ∅ visited0; nfetch := 0; trace := [] |} Hdepth)
    as (r & Hr & Hv & _ & Hf & Hd & Hret).
  exists r. by split_and!.
Qed.

(** X8: one level above the depth bound, when the page of the seed is
    fetched and parses and its hrefs join with the seed into [urls], and
    each linked page either fails to be fetched with a failure line that
    prints or is fetched, parses and has hrefs that join, the crawl returns
    the visited-set it was given, the seed, and every one of [urls]. *)
Theorem find_urls_one_level (stack : nat) (url : string)
    (visited0 : option (gset string)) (depth : Z) (content : Page)
    (hrefs urls : list string) :
  requests_get 0 url = Fetched content →
  find_all_hrefs content = Some hrefs →
  mapM (urljoin url) hrefs = Some urls →
  (∀ n u, u ∈ urls → leaf_ok n u) →
  ∃ c, find_urls (S (S stack)) url visited0 depth (depth + 1) = Returned c ∧
       visited c = default ∅ visited0 ∪ {[url]} ∪ list_to_set urls.
Proof.
  intros Hget Hparse Hjoin Hok. unfold Urls.find_urls.
  cbn [Urls.find_urls_rec].
  unfold fetch, visited_add. cbn [nfetch visited trace].
  rewrite Hget, Hparse, Hjoin.
  destruct (Z.ltb_spec depth (depth + 1)) as [_|?]; [|lia].
  destruct (crawl_links_leaves stack (depth + 1) (depth + 1) urls ltac:(lia) Hok
              {| visited := {[url]} ∪ default ∅ visited0; nfetch := 1;
                 trace := [] ++ [Fetch url ({[url]} ∪ default ∅ visited0)] |})
    as (c & Hc & Hv).
  exists c. split; [exact Hc|]. rewrite Hv. simpl. set_solver.
Qed.

End CrawlerReach.

Lemma find_urls_at_depth_bound_witness :
  ∃ r, Urls.find_urls site site_hrefs site_join prints_all 1 "http://s/"
         (Some {["http://s/b"]}) 2 1 = r ∧
       visited (crawl_state r) = {["http://s/"]} ∪ default ∅ (Some {["http://s/b"]}) ∧
       fetched (trace (crawl_state r)) = ["http://s/"] ∧
       descended (trace (crawl_state r)) = [] ∧
       ((∃ c, r = Returned c)
        ↔ Urls.leaf_ok site site_hrefs site_join prints_all 0 "http://s/").
Proof.
  apply (find_urls_at_depth_bound site site_hrefs site_join prints_all 0
           "http://s/" (Some {["http://s/b"]}) 2 1).
  lia.
Defined.

Lemma find_urls_one_level_witness :
  ∃ c, Urls.find_urls site site_hrefs site_join prints_all 2 "http://s/" None 0 (0 + 1)
       = Returned c ∧
       visited c = default ∅ None ∪ {["http://s/"]}
                   ∪ list_to_set ["http://s/a"; "http://s/b"; "http://s/a"].
Proof.
  apply (find_urls_one_level site site_hrefs site_join prints_all 0 "http://s/"
           None 0 ["a"; "b"; "a"] ["a"; "b"; "a"]);
    [reflexivity | reflexivity | reflexivity |].
  intros n u Hu. unfold Urls.leaf_ok.
  apply elem_of_cons in Hu as [->|Hu]; [reflexivity|].
  apply elem_of_cons in Hu as [->|Hu]; [simpl; eauto|].
  apply elem_of_cons in Hu as [->|Hu]; [reflexivity|].
  by apply elem_of_nil in Hu.
Defined.

End UrlsProofs.

(** ** Chat agent *)
Module ChatAgentProofs.
Import ChatAgent.

Lemma llm_calls_app (t1 t2 : list AgentEvent) :
  llm_calls (t1 ++ t2) = llm_calls t1 ++ llm_calls t2.
Proof. apply omap_app. Qed.

Lemma handle_calls_app (t1 t2 : list AgentEvent) :
  handle_calls (t1 ++ t2) = handle_calls t1 ++ handle_calls t2.
Proof. apply omap_app. Qed.

Lemma only_grows_cons (h : list LLMMessage) (hs : list (list LLMMessage)) :
  (∀ h', h' ∈ hs → h `prefix_of` h') → only_grows hs → only_grows (h :: hs).
Proof.
  intros Hh Hhs [|i] [|j] hi hj Hij Hi Hj; simpl in *.
  - by simplify_eq.
  - simplify_eq. apply Hh. by eapply list_elem_of_lookup_2.
  - lia.
  - eapply Hhs; [|done..]. lia.
Qed.

(** Unfolds the monadic plumbing of the agent's methods. *)
Ltac run_M :=
  cbv [start respond respond_messages handle_message StreamingIfAllowed
       append_message set_message_history set_stream log_event print get
       state_of mbind M_bind mret M_ret with_history with_stream with_event];
  cbn [task_messages message_history llm_stream stdin trace].

Section Agent.
Context {Metadata : Type}.
Variable llm : nat → list LLMMessage → option (Document Metadata).
Variable handle : nat → string → option string.
Variable settings_stream : bool.

#[local] Abbreviation start := (ChatAgent.start llm settings_stream).
#[local] Abbreviation respond := (ChatAgent.respond llm settings_stream).
#[local] Abbreviation handle_message := (ChatAgent.handle_message handle).
#[local] Abbreviation run := (ChatAgent.run llm handle settings_stream).
#[local] Abbreviation respond_all := (ChatAgent.respond_all llm settings_stream).
#[local] Abbreviation session := (ChatAgent.session llm settings_stream).
#[local] Abbreviation transcripts := (ChatAgent.transcripts llm settings_stream).

(** *** The methods, computed *)

Lemma start_eq (a : Agent) :
  start a =
  let a1 := with_event (LLMCall settings_stream (task_messages a)) a in
  match llm (length (llm_calls (trace a))) (task_messages a) with
  | Some response =>
      Ok (document response)
         (with_history (task_messages a ++ [assistant response]) a1)
  | None => Raise LLMError a1
  end.
Proof.
  destruct a as [task h st inp tr]. run_M.
  destruct (llm (length (llm_calls tr)) task); reflexivity.
Qed.

Lemma respond_eq (message : string) (a : Agent) :
  respond message a =
  let h := message_history a ++ [user message] in
  let a1 := with_event (LLMCall settings_stream h) (with_history h a) in
  match llm (length (llm_calls (trace a))) h with
  | Some response => Ok (document response) (with_history (h ++ [assistant response]) a1)
  | None => Raise LLMError a1
  end.
Proof.
  destruct a as [task h st inp tr]. run_M.
  destruct (llm (length (llm_calls tr)) (h ++ [user message])); reflexivity.
Qed.

Lemma handle_message_eq (msg : string) (a : Agent) :
  handle_message msg a
  = Ok (handle (length (handle_calls (trace a))) msg)
       (with_event (HandleMessage msg) a).
Proof. destruct a. reflexivity. Qed.

(** *** Transcript growth *)

Lemma respond_history (message : string) (a : Agent) :
  task_messages (state_of (respond message a)) = task_messages a ∧
  ∃ tl, message_history (state_of (respond message a))
          = message_history a ++ user message :: tl ∧
        (∀ d a', respond message a = Ok d a' → length tl = 1%nat) ∧
        (∀ e a', respond message a = Raise e a' → tl = []).
Proof.
  rewrite respond_eq. cbv zeta.
  destruct (llm _ _) as [response|]; simpl; (split; [done|]).
  - exists [assistant response]. rewrite <- app_assoc. by split_and!.
  - exists []. by split_and!.
Qed.

Lemma respond_all_length (messages : list string) :
  ∀ a a', respond_all messages a = Ok () a' →
    task_messages a' = task_messages a ∧
    length (message_history a')
      = (length (message_history a) + 2 * length messages)%nat.
Proof.
  induction messages as [|message rest IH]; intros a a' Hrun; simpl in Hrun.
  - injection Hrun as <-. simpl. split; [done | lia].
  - unfold mbind, M_bind in Hrun.
    destruct (respond message a) as [d a1|e a1] eqn:E; [|done].
    destruct (respond_history message a) as (Ht & tl & Hh & Hok & _).
    rewrite E in Ht, Hh. simpl in Ht, Hh.
    apply IH in Hrun as [-> ->]. split; [done|].
    rewrite Hh, length_app. simpl. rewrite (Hok _ _ E). lia.
Qed.

(** C1: after [start()] and then [n] calls of [respond], all of which
    returned, the transcript has [len(task_messages) + 1 + 2*n] messages. *)
Theorem transcript_length_after_session (a a' : Agent) (messages : list string) :
  session messages a = Ok () a' →
  length (message_history a')
    = (length (task_messages a) + 1 + 2 * length messages)%nat.
Proof.
  unfold ChatAgent.session, mbind, M_bind. rewrite start_eq. cbv zeta.
  destruct (llm _ _) as [response|]; [|done].
  intros [Ht ->]%respond_all_length. simpl. rewrite length_app. simpl. lia.
Qed.

(** C2: when the LLM answers the transcript [task_messages], [start()] sends
    exactly that transcript to it (one call), sets [message_history] to
    [task_messages] followed by one assistant message holding the reply, and
    returns the reply's content and metadata as a Document. *)
Theorem start_sets_history (a : Agent) (response : Document Metadata) :
  llm (length (llm_calls (trace a))) (task_messages a) = Some response →
  ∃ a', start a = Ok {| doc_content := doc_content response;
                        metadata := metadata response |} a' ∧
        trace a' = trace a ++ [LLMCall settings_stream (task_messages a)] ∧
        message_history a'
          = task_messages a ++
              [{| role := ASSISTANT; content := doc_content response |}] ∧
        task_messages a' = task_messages a.
Proof.
  intros Hllm. rewrite start_eq. cbv zeta. rewrite Hllm.
  eexists. split; [reflexivity|]. by split_and!.
Qed.

(** C10: when the LLM fails on the transcript [respond] sends it, the
    exception reaches the caller and the transcript is left one message
    longer than before the call: the user message, with no assistant message
    after it. *)
Theorem respond_not_atomic_on_error (a : Agent) (message : string) :
  llm (length (llm_calls (trace a)))
      (message_history a ++ [{| role := USER; content := message |}]) = None →
  ∃ a', respond message a = Raise LLMError a' ∧
        message_history a'
          = message_history a ++ [{| role := USER; content := message |}] ∧
        length (message_history a') = S (length (message_history a)) ∧
        message_history a' ≠ message_history a.
Proof.
  intros Hllm. rewrite respond_eq. cbv zeta. unfold user. rewrite Hllm.
  eexists. split; [reflexivity|]. simpl. split_and!; [done| |].
  - rewrite length_app. simpl. lia.
  - intros Heq. apply (f_equal length) in Heq. rewrite length_app in Heq.
    simpl in Heq. lia.
Qed.

(** *** Prefix order of the transcript states *)

Lemma respond_prefix (message : string) (a : Agent) :
  message_history a `prefix_of` message_history (state_of (respond message a)).
Proof.
  destruct (respond_history message a) as (_ & tl & -> & _). by eexists.
Qed.

Lemma transcripts_respond_prefix (ops : list Op) :
  Forall is_respond ops →
  ∀ a h, h ∈ transcripts ops a → message_history a `prefix_of` h.
Proof.
  induction 1 as [|op rest Hop Hrest IH]; intros a h Hin; simpl in Hin.
  - apply list_elem_of_singleton in Hin as ->. done.
  - apply elem_of_cons in Hin as [->|Hin]; [done|].
    destruct op as [|message]; [done|]. simpl in Hin.
    etrans; [apply (respond_prefix message)|]. by apply IH.
Qed.

Lemma transcripts_respond_only_grow (ops : list Op) :
  Forall is_respond ops → ∀ a, only_grows (transcripts ops a).
Proof.
  induction 1 as [|op rest Hop Hrest IH]; intros a; simpl.
  - apply only_grows_cons; [by intros h' ?%elem_of_nil|].
    by intros i j hi hj _ ?.
  - apply only_grows_cons; [|apply IH].
    intros h' Hin. destruct op as [|message]; [done|]. simpl in Hin.
    etrans; [apply (respond_prefix message)|].
    by apply (transcripts_respond_prefix rest).
Qed.

(** C3 (amended): over any sequence of [respond] calls, returning or
    raising, every earlier state of [message_history] is a prefix of every
    later one; and so it is for an agent with an empty transcript on which
    [start()] is called first and only [respond] afterwards. *)
Theorem transcript_grows_without_restart (a : Agent) (ops : list Op) :
  Forall is_respond ops →
  only_grows (transcripts ops a) ∧
  (message_history a = [] → only_grows (transcripts (Start :: ops) a)).
Proof.
  intros Hops. split; [by apply transcripts_respond_only_grow|].
  intros Hnil. cbn [ChatAgent.transcripts]. rewrite Hnil.
  apply only_grows_cons; [intros; apply prefix_nil|].
  by apply transcripts_respond_only_grow.
Qed.

(** *** The interactive loop *)

(** C4: when, in the first pass of the loop of [run], [handle_message]
    returns [None] for the reply to [start()] and again for the reply to the
    reformat request, and the line then read from the human is an exit token,
    [run] returns within that pass: the LLM has been called exactly twice
    (by [start] and by the reformat [respond]) and nothing but the farewell
    line follows the input. *)
Theorem run_exits_on_first_fallback (task : option (list LLMMessage))
    (stream : bool) (line : string) (rest : list string)
    (r1 r2 : Document Metadata) (fuel : nat) :
  llm 0 (default default_task task) = Some r1 →
  handle 0 (doc_content r1) = None →
  llm 1 (default default_task task ++
           [{| role := ASSISTANT; content := doc_content r1 |};
            {| role := USER; content := reformat_prompt |}]) = Some r2 →
  handle 1 (doc_content r2) = None →
  line ∈ exit_tokens →
  ∃ a', run (S fuel) (init task stream (line :: rest)) = Some (Ok () a') ∧
        trace a' =
          [LLMCall settings_stream (default default_task task);
           HandleMessage (doc_content r1);
           LLMCall settings_stream
             (default default_task task ++
                [{| role := ASSISTANT; content := doc_content r1 |};
                 {| role := USER; content := reformat_prompt |}]);
           HandleMessage (doc_content r2);
           Print (newline +:+ "[blue]Human: ");
           Input line;
           Print "[green] Bye, hope this was useful!"] ∧
        llm_calls (trace a') =
          [default default_task task;
           default default_task task ++
             [{| role := ASSISTANT; content := doc_content r1 |};
              {| role := USER; content := reformat_prompt |}]] ∧
        message_history a' =
          default default_task task ++
            [{| role := ASSISTANT; content := doc_content r1 |};
             {| role := USER; content := reformat_prompt |};
             {| role := ASSISTANT; content := doc_content r2 |}] ∧
        stdin a' = rest.
Proof.
  intros Hl1 Hh1 Hl2 Hh2 Hexit.
  unfold ChatAgent.run. rewrite start_eq. cbv zeta. simpl. rewrite Hl1.
  unfold run_iteration, mbind, M_bind.
  rewrite handle_message_eq. simpl. rewrite Hh1.
  rewrite respond_eq. cbv zeta. simpl. rewrite <- app_assoc. simpl.
  unfold assistant at 1, user at 1. rewrite Hl2.
  rewrite handle_message_eq. simpl. rewrite Hh2. simpl.
  rewrite decide_True by done. simpl.
  eexists. split; [reflexivity|]. simpl. split_and!; [done|done| |done].
  by rewrite <- !app_assoc.
Qed.

End Agent.

(** *** The stub session *)

Lemma transcript_length_after_session_witness :
  ∃ a', session ok_llm true ["hi"; "there"] (init None false []) = Ok () a' ∧
        length (message_history a') = 6%nat.
Proof.
  eexists. split; [vm_compute; reflexivity|].
  apply (transcript_length_after_session ok_llm true
           (init None false []) _ ["hi"; "there"]).
  vm_compute. reflexivity.
Defined.

Lemma start_sets_history_witness :
  ∃ a', start ok_llm true (init None false []) = Ok ok_reply a' ∧
        trace a' = [LLMCall true default_task] ∧
        message_history a'
          = [{| role := SYSTEM; content := "You are a helpful assistant" |};
             {| role := ASSISTANT; content := "OK" |}] ∧
        task_messages a' = default_task.
Proof.
  apply (start_sets_history ok_llm true (init None false []) ok_reply).
  reflexivity.
Defined.

Lemma respond_not_atomic_on_error_witness :
  ∃ a', respond down_llm true "hi" (init None false []) = Raise LLMError a' ∧
        message_history a' = [{| role := USER; content := "hi" |}] ∧
        length (message_history a') = 1%nat ∧
        message_history a' ≠ [].
Proof.
  apply (respond_not_atomic_on_error down_llm true (init None false []) "hi").
  reflexivity.
Defined.

Lemma run_exits_on_first_fallback_witness :
  ∃ a', run ok_llm no_action true 1 (init None false ["q"]) = Some (Ok () a') ∧
        trace a' =
          [LLMCall true default_task;
           HandleMessage "OK";
           LLMCall true
             (default_task ++
                [{| role := ASSISTANT; content := "OK" |};
                 {| role := USER; content := reformat_prompt |}]);
           HandleMessage "OK";
           Print (newline +:+ "[blue]Human: ");
           Input "q";
           Print "[green] Bye, hope this was useful!"] ∧
        llm_calls (trace a') =
          [default_task;
           default_task ++
             [{| role := ASSISTANT; content := "OK" |};
              {| role := USER; content := reformat_prompt |}]] ∧
        message_history a' =
          default_task ++
            [{| role := ASSISTANT; content := "OK" |};
             {| role := USER; content := reformat_prompt |};
             {| role := ASSISTANT; content := "OK" |}] ∧
        stdin a' = [].
Proof.
  apply (run_exits_on_first_fallback ok_llm no_action true
           None false "q" [] ok_reply ok_reply 0);
    try reflexivity.
  unfold exit_tokens. set_solver.
Defined.

(** C3, as stated, fails: a second [start()] throws away the turns made
    since the first one.  After [start(); respond("hi")] the transcript has
    four messages, after the next [start()] it has two. *)
Lemma transcript_shrinks_on_restart :
  ¬ only_grows
      (transcripts ok_llm true [Start; Respond "hi"; Start] (init None false [])).
Proof.
  intros Hgrows.
  assert (Hp := Hgrows 2%nat 3%nat _ _ (le_S _ _ (le_n _)) eq_refl eq_refl).
  apply prefix_length in Hp. vm_compute in Hp. lia.
Qed.

Lemma transcript_grows_without_restart_witness :
  Forall is_respond [Respond "hi"; Respond "there"] ∧
  only_grows
    (transcripts ok_llm true [Respond "hi"; Respond "there"] (init None false [])) ∧
  only_grows
    (transcripts ok_llm true [Start; Respond "hi"; Respond "there"]
       (init None false [])).
Proof.
  assert (Hops : Forall is_respond [Respond "hi"; Respond "there"])
    by (repeat constructor).
  split; [exact Hops|].
  destruct (transcript_grows_without_restart ok_llm true
              (init None false []) _ Hops) as [H1 H2].
  split; [exact H1 | exact (H2 eq_refl)].
Defined.

(** ** Chat agent: the loop of [run] *)

Lemma keeps_bind {A B : Type} (P : Agent → Prop) (m : M A) (f : A → M B) :
  keeps P m → (∀ x, keeps P (f x)) → keeps P (m ≫= f).
Proof.
  intros Hm Hf a Ha. unfold mbind, M_bind. specialize (Hm a Ha).
  destruct (m a) as [x a'|e a']; simpl in *; [by apply Hf | done].
Qed.

Lemma keeps_ok_bind {A B : Type} (P : Agent → Prop) (m : M A) (f : A → M B) :
  keeps_ok P m → (∀ x, keeps_ok P (f x)) → keeps_ok P (m ≫= f).
Proof.
  intros Hm Hf a y a'' Ha. unfold mbind, M_bind.
  destruct (m a) as [x a'|e a'] eqn:E; [|done].
  intros Hfx. eapply Hf; [|exact Hfx]. by eapply Hm.
Qed.

Lemma raises_in_bind {A B : Type} (Q : Exn → Agent → Prop) (m : M A) (f : A → M B) :
  raises_in Q m → (∀ x, raises_in Q (f x)) → raises_in Q (m ≫= f).
Proof.
  intros Hm Hf a e a''. unfold mbind, M_bind.
  destruct (m a) as [x a'|e' a'] eqn:E.
  - apply Hf.
  - intros [= <- <-]. by eapply Hm.
Qed.

Lemma same_conversation_event (e : AgentEvent) (a : Agent) :
  llm_calls [e] = [] → same_conversation a (with_event e a).
Proof.
  intros He. unfold same_conversation. simpl.
  by rewrite llm_calls_app, He, app_nil_r.
Qed.

Lemma quiet_ret {A : Type} (x : A) : quiet (mret x : M A).
Proof. by intros a. Qed.

Lemma quiet_print (text : string) : quiet (print text).
Proof. intros a. by apply same_conversation_event. Qed.

Lemma quiet_input : quiet input.
Proof.
  intros a. unfold input. destruct (stdin a) as [|line rest]; simpl; [done|].
  unfold same_conversation. simpl. by rewrite llm_calls_app, app_nil_r.
Qed.

Lemma quiet_bind {A B : Type} (m : M A) (f : A → M B) :
  quiet m → (∀ x, quiet (f x)) → quiet (m ≫= f).
Proof.
  intros Hm Hf a. unfold mbind, M_bind. specialize (Hm a).
  destruct (m a) as [x a'|e a']; simpl in *; [|done].
  destruct Hm as (Ht & Hh & Hl). destruct (Hf x a') as (Ht' & Hh' & Hl').
  unfold same_conversation. by rewrite Ht', Hh', Hl'.
Qed.

Lemma sent_in_order_same (a a' : Agent) :
  same_conversation a a' → sent_in_order a → sent_in_order a'.
Proof. intros (Ht & Hh & Hl). unfold sent_in_order. by rewrite Ht, Hh, Hl. Qed.

Lemma transcript_shape_same (a a' : Agent) :
  same_conversation a a' → transcript_shape a → transcript_shape a'.
Proof. intros (Ht & Hh & Hl). unfold transcript_shape. by rewrite Ht, Hh, Hl. Qed.

Lemma quiet_keeps_sent_in_order {A : Type} (t : list LLMMessage) (m : M A) :
  quiet m → keeps (λ a, task_messages a = t ∧ sent_in_order a) m.
Proof.
  intros Hm a [Ht Ha]. split; [|by eapply sent_in_order_same].
  destruct (Hm a) as (-> & _). done.
Qed.

Lemma quiet_keeps_ok_shape {A : Type} (t : list LLMMessage) (m : M A) :
  quiet m → keeps_ok (λ a, task_messages a = t ∧ transcript_shape a) m.
Proof.
  intros Hm a x a' [Ht Ha] Hrun. specialize (Hm a). rewrite Hrun in Hm.
  simpl in Hm. split; [destruct Hm as (-> & _); done|].
  by eapply transcript_shape_same.
Qed.

Lemma only_grows_snoc (hs : list (list LLMMessage)) (h : list LLMMessage) :
  only_grows hs → (∀ h', h' ∈ hs → h' `prefix_of` h) → only_grows (hs ++ [h]).
Proof.
  intros Hhs Hh i j hi hj Hij
    [[Hi Hli]|[Hi <-]]%lookup_snoc_Some [[Hj Hlj]|[Hj <-]]%lookup_snoc_Some.
  - exact (Hhs i j hi hj Hij Hli Hlj).
  - apply Hh. by eapply list_elem_of_lookup_2.
  - lia.
  - done.
Qed.

Section AgentRun.
Context {Metadata : Type}.
Variable llm : nat → list LLMMessage → option (Document Metadata).
Variable handle : nat → string → option string.
Variable settings_stream : bool.

#[local] Abbreviation start := (ChatAgent.start llm settings_stream).
#[local] Abbreviation respond := (ChatAgent.respond llm settings_stream).
#[local] Abbreviation handle_message := (ChatAgent.handle_message handle).
#[local] Abbreviation run_iteration :=
  (ChatAgent.run_iteration llm handle settings_stream).
#[local] Abbreviation run_loop := (ChatAgent.run_loop llm handle settings_stream).
#[local] Abbreviation run := (ChatAgent.run llm handle settings_stream).

(** *** What each step does to the conversation *)

Lemma quiet_handle_message (msg : string) : quiet (handle_message msg).
Proof.
  intros a. rewrite (handle_message_eq handle). simpl.
  by apply same_conversation_event.
Qed.

Lemma respond_state (message : string) (a : Agent) :
  ∃ tl, task_messages (state_of (respond message a)) = task_messages a ∧
        message_history (state_of (respond message a))
          = (message_history a ++ [user message]) ++ tl ∧
        llm_calls (trace (state_of (respond message a)))
          = llm_calls (trace a) ++ [message_history a ++ [user message]].
Proof.
  rewrite (respond_eq llm settings_stream). cbv zeta.
  destruct (llm _ _) as [response|]; simpl.
  - exists [assistant response]. by rewrite llm_calls_app.
  - exists []. by rewrite llm_calls_app, app_nil_r.
Qed.

Lemma keeps_sent_in_order_respond (t : list LLMMessage) (message : string) :
  keeps (λ a, task_messages a = t ∧ sent_in_order a) (respond message).
Proof.
  intros a [Heq (Htask & Hgrows & Hsent)].
  destruct (respond_state message a) as (tl & Ht & Hh & Hl).
  split; [by rewrite Ht|].
  unfold sent_in_order. rewrite Ht, Hh, Hl. split_and!.
  - etrans; [exact Htask|]. rewrite <- app_assoc. by apply prefix_app_r.
  - apply only_grows_snoc; [done|]. intros m Hm.
    destruct (Hsent m Hm) as [_ Hp]. by apply prefix_app_r.
  - intros m [Hm| ->%list_elem_of_singleton]%elem_of_app.
    + destruct (Hsent m Hm) as [Hp1 Hp2]. split; [done|].
      rewrite <- app_assoc. by apply prefix_app_r.
    + split; [by apply prefix_app_r | by apply prefix_app_r].
Qed.

Lemma keeps_ok_shape_respond (t : list LLMMessage) (message : string) :
  keeps_ok (λ a, task_messages a = t ∧ transcript_shape a) (respond message).
Proof.
  intros a d a' [Ht (r0 & turns & Hh & Hn)].
  rewrite (respond_eq llm settings_stream). cbv zeta.
  destruct (llm _ _) as [response|]; [|done]. intros [= _ <-]. simpl.
  split; [done|]. exists r0, (turns ++ [(message, doc_content response)]).
  simpl. rewrite llm_calls_app, !length_app, Hn, Hh. simpl. split; [|lia].
  unfold dialogue. rewrite flat_map_app. simpl.
  by rewrite <- !app_assoc.
Qed.

Lemma raises_in_quiet_print (Q : Exn → Agent → Prop) (text : string) :
  raises_in Q (print text).
Proof. by intros a e a'. Qed.

Lemma raises_in_ret {A : Type} (Q : Exn → Agent → Prop) (x : A) :
  raises_in Q (mret x : M A).
Proof. by intros a e a'. Qed.

Lemma raises_in_handle_message (Q : Exn → Agent → Prop) (msg : string) :
  raises_in Q (handle_message msg).
Proof. intros a e a'. by rewrite (handle_message_eq handle). Qed.

Lemma raises_in_respond (message : string) :
  raises_in stopped_at (respond message).
Proof.
  intros a e a'. rewrite (respond_eq llm settings_stream). cbv zeta.
  destruct (llm _ _) as [response|]; [done|]. intros [= <- <-].
  simpl. eexists _, _. apply last_snoc.
Qed.

Lemma raises_in_ask_human :
  raises_in stopped_at (print (newline +:+ "[blue]Human: ") ;; input).
Proof.
  intros a e a'. unfold mbind, M_bind, print, log_event, input. simpl.
  destruct (stdin a) as [|line rest] eqn:E; [|done]. intros [= <- <-].
  simpl. split; [done | apply last_snoc].
Qed.

(** *** One pass of the loop *)

Lemma keeps_sent_in_order_iteration (t : list LLMMessage) (llm_msg : string) :
  keeps (λ a, task_messages a = t ∧ sent_in_order a) (run_iteration llm_msg).
Proof.
  unfold ChatAgent.run_iteration.
  apply keeps_bind; [apply quiet_keeps_sent_in_order, quiet_handle_message|].
  intros agent_result. apply keeps_bind.
  { destruct agent_result as [r|].
    - apply quiet_keeps_sent_in_order, quiet_ret.
    - apply keeps_bind; [apply keeps_sent_in_order_respond|].
      intros response. apply quiet_keeps_sent_in_order, quiet_handle_message. }
  clear agent_result. intros agent_result. apply keeps_bind.
  { apply quiet_keeps_sent_in_order. destruct agent_result as [r|];
      (apply quiet_bind; [apply quiet_print|intros _]);
      [apply quiet_ret | apply quiet_input]. }
  intros msg. destruct (decide (msg ∈ exit_tokens)).
  - apply quiet_keeps_sent_in_order.
    apply quiet_bind; [apply quiet_print | intros _; apply quiet_ret].
  - apply keeps_bind; [apply keeps_sent_in_order_respond|].
    intros response. apply quiet_keeps_sent_in_order, quiet_ret.
Qed.

Lemma keeps_ok_shape_iteration (t : list LLMMessage) (llm_msg : string) :
  keeps_ok (λ a, task_messages a = t ∧ transcript_shape a) (run_iteration llm_msg).
Proof.
  unfold ChatAgent.run_iteration.
  apply keeps_ok_bind; [apply quiet_keeps_ok_shape, quiet_handle_message|].
  intros agent_result. apply keeps_ok_bind.
  { destruct agent_result as [r|].
    - apply quiet_keeps_ok_shape, quiet_ret.
    - apply keeps_ok_bind; [apply keeps_ok_shape_respond|].
      intros response. apply quiet_keeps_ok_shape, quiet_handle_message. }
  clear agent_result. intros agent_result. apply keeps_ok_bind.
  { apply quiet_keeps_ok_shape. destruct agent_result as [r|];
      (apply quiet_bind; [apply quiet_print|intros _]);
      [apply quiet_ret | apply quiet_input]. }
  intros msg. destruct (decide (msg ∈ exit_tokens)).
  - apply quiet_keeps_ok_shape.
    apply quiet_bind; [apply quiet_print | intros _; apply quiet_ret].
  - apply keeps_ok_bind; [apply keeps_ok_shape_respond|].
    intros response. apply quiet_keeps_ok_shape, quiet_ret.
Qed.

Lemma raises_in_iteration (llm_msg : string) :
  raises_in stopped_at (run_iteration llm_msg).
Proof.
  unfold ChatAgent.run_iteration.
  apply raises_in_bind; [apply raises_in_handle_message|].
  intros agent_result. apply raises_in_bind.
  { destruct agent_result as [r|].
    - apply raises_in_ret.
    - apply raises_in_bind; [apply raises_in_respond|].
      intros response. apply raises_in_handle_message. }
  clear agent_result. intros agent_result. apply raises_in_bind.
  { destruct agent_result as [r|].
    - apply raises_in_bind; [apply raises_in_quiet_print|].
      intros _. apply raises_in_ret.
    - apply raises_in_ask_human. }
  intros msg. destruct (decide (msg ∈ exit_tokens)).
  - apply raises_in_bind; [apply raises_in_quiet_print|].
    intros _. apply raises_in_ret.
  - apply raises_in_bind; [apply raises_in_respond|].
    intros response. apply raises_in_ret.
Qed.

(** *** The whole loop *)

Lemma run_loop_sent_in_order (t : list LLMMessage) (fuel : nat) :
  ∀ llm_msg a res,
    run_loop fuel llm_msg a = Some res →
    task_messages a = t ∧ sent_in_order a →
    task_messages (state_of res) = t ∧ sent_in_order (state_of res).
Proof.
  induction fuel as [|fuel IH]; intros llm_msg a res Hrun Ha; [done|].
  simpl in Hrun.
  pose proof (keeps_sent_in_order_iteration t llm_msg a Ha) as Hstep.
  destruct (ChatAgent.run_iteration llm handle settings_stream llm_msg a)
    as [[llm_msg'|] a1|e a1]; simpl in Hstep.
  - by eapply IH.
  - by injection Hrun as <-.
  - by injection Hrun as <-.
Qed.

Lemma run_loop_shape (t : list LLMMessage) (fuel : nat) :
  ∀ llm_msg a a',
    run_loop fuel llm_msg a = Some (Ok () a') →
    task_messages a = t ∧ transcript_shape a →
    task_messages a' = t ∧ transcript_shape a'.
Proof.
  induction fuel as [|fuel IH]; intros llm_msg a a' Hrun Ha; [done|].
  simpl in Hrun.
  destruct (ChatAgent.run_iteration llm handle settings_stream llm_msg a)
    as [[llm_msg'|] a1|e a1] eqn:E; [| |done].
  - eapply IH; [exact Hrun|]. by eapply keeps_ok_shape_iteration.
  - injection Hrun as <-. by eapply keeps_ok_shape_iteration.
Qed.

Lemma run_loop_raises (fuel : nat) :
  ∀ llm_msg a e a',
    run_loop fuel llm_msg a = Some (Raise e a') → stopped_at e a'.
Proof.
  induction fuel as [|fuel IH]; intros llm_msg a e a' Hrun; [done|].
  simpl in Hrun.
  destruct (ChatAgent.run_iteration llm handle settings_stream llm_msg a)
    as [[llm_msg'|] a1|e1 a1] eqn:E; [|done|].
  - by eapply IH.
  - injection Hrun as <- <-. by eapply raises_in_iteration.
Qed.

Lemma only_grows_singleton (h : list LLMMessage) : only_grows [h].
Proof.
  intros [|i] [|j] hi hj _ Hi Hj; simpl in *; try done.
  by simplify_eq.
Qed.

(** X9: when [handle_message] turns the reply to [start()] into a result
    that is an exit token, [run] returns in the first pass with one LLM call
    made, the result and the farewell printed, and no line of input read. *)
Theorem run_exits_on_agent_result (task : option (list LLMMessage))
    (stream : bool) (lines : list string) (r1 : Document Metadata)
    (result : string) (fuel : nat) :
  llm 0 (default default_task task) = Some r1 →
  handle 0 (doc_content r1) = Some result →
  result ∈ exit_tokens →
  ∃ a', run (S fuel) (init task stream lines) = Some (Ok () a') ∧
        trace a' =
          [LLMCall settings_stream (default default_task task);
           HandleMessage (doc_content r1);
           Print ("[red]Agent: " +:+ result);
           Print "[green] Bye, hope this was useful!"] ∧
        message_history a' =
          default default_task task ++
            [{| role := ASSISTANT; content := doc_content r1 |}] ∧
        stdin a' = lines.
Proof.
  intros Hl1 Hh1 Hexit.
  unfold ChatAgent.run. rewrite (start_eq llm settings_stream). cbv zeta.
  simpl. rewrite Hl1.
  unfold ChatAgent.run_iteration, mbind, M_bind.
  rewrite (handle_message_eq handle). simpl. rewrite Hh1. simpl.
  rewrite decide_True by done. simpl.
  eexists. split; [reflexivity|]. by split_and!.
Qed.



(** X11: on a fresh agent, however [run] ends, every transcript it sent to
    the LLM starts with the task messages and extends the transcript sent
    before it: the LLM is always given the whole conversation so far. *)
Theorem run_sends_growing_transcripts (fuel : nat) (a : Agent)
    (res : Result unit) :
  llm_calls (trace a) = [] →
  run fuel a = Some res →
  only_grows (llm_calls (trace (state_of res))) ∧
  ∀ m, m ∈ llm_calls (trace (state_of res)) → task_messages a `prefix_of` m.
Proof.
  intros Hfresh. unfold ChatAgent.run.
  rewrite (start_eq llm settings_stream). cbv zeta.
  destruct (llm _ _) as [r|].
  - intros Hrun.
    apply (run_loop_sent_in_order (task_messages a)) in Hrun
      as [Ht (_ & Hgrows & Hsent)].
    + split; [done|]. intros m Hm. rewrite <- Ht. by apply Hsent.
    + split; [done|]. unfold sent_in_order. simpl.
      rewrite llm_calls_app, Hfresh. simpl. split_and!.
      * by apply prefix_app_r.
      * apply only_grows_singleton.
      * intros m ->%list_elem_of_singleton. split; [done|]. by apply prefix_app_r.
  - intros [= <-]. simpl. rewrite llm_calls_app, Hfresh. simpl.
    split; [apply only_grows_singleton|].
    by intros m ->%list_elem_of_singleton.
Qed.

(** X12: on a fresh agent, when [run] returns normally the transcript is the
    task messages, then the LLM's first reply, then one user message and one
    reply per later LLM call, so it has [len(task_messages) + 2*k - 1]
    messages after [k] LLM calls. *)
Theorem run_transcript_shape (fuel : nat) (a a' : Agent) :
  llm_calls (trace a) = [] →
  run fuel a = Some (Ok () a') →
  task_messages a' = task_messages a ∧
  transcript_shape a' ∧
  (length (message_history a') + 1
   = length (task_messages a) + 2 * length (llm_calls (trace a')))%nat.
Proof.
  intros Hfresh. unfold ChatAgent.run.
  rewrite (start_eq llm settings_stream). cbv zeta.
  destruct (llm _ _) as [r|]; [|done].
  intros Hrun. apply (run_loop_shape (task_messages a)) in Hrun as [Ht Hshape].
  - split_and!; [done..|].
    destruct Hshape as (r0 & turns & Hh & Hn). rewrite Hh, Hn, Ht, length_app.
    unfold dialogue. simpl.
    assert (Hlen : length (flat_map
                     (λ turn : string * string,
                        [{| role := USER; content := turn.1 |};
                         {| role := ASSISTANT; content := turn.2 |}]) turns)
                   = (2 * length turns)%nat).
    { clear. induction turns as [|turn turns IH]; simpl; lia. }
    rewrite Hlen. lia.
  - split; [done|]. exists (doc_content r), []. simpl.
    rewrite llm_calls_app, Hfresh. done.
Qed.

(** X13: when [run] ends with an exception, the loop has stopped on the
    spot: after an LLM error the failed call is the last thing the agent
    did; after the end of input nothing was left to read and the prompt for
    the human is the last thing it did. *)
Theorem run_failure_site (fuel : nat) (a : Agent) (e : Exn) (a' : Agent) :
  run fuel a = Some (Raise e a') →
  stopped_at e a'.
Proof.
  unfold ChatAgent.run. rewrite (start_eq llm settings_stream). cbv zeta.
  destruct (llm _ _) as [r|].
  - apply run_loop_raises.
  - intros [= <- <-]. simpl. eexists _, _. apply last_snoc.
Qed.

(** X14: when the LLM answers, [respond] sends it the transcript with the
    user message appended, leaves the transcript extended by exactly that
    user message and the assistant's reply, in this order, and returns the
    reply as a Document. *)
Theorem respond_appends_turn (a : Agent) (message : string)
    (response : Document Metadata) :
  llm (length (llm_calls (trace a)))
      (message_history a ++ [{| role := USER; content := message |}])
    = Some response →
  ∃ a', respond message a
          = Ok {| doc_content := doc_content response;
                  metadata := metadata response |} a' ∧
        trace a' = trace a ++
          [LLMCall settings_stream
             (message_history a ++ [{| role := USER; content := message |}])] ∧
        message_history a' =
          message_history a ++
            [{| role := USER; content := message |};
             {| role := ASSISTANT; content := doc_content response |}] ∧
        task_messages a' = task_messages a ∧
        stdin a' = stdin a.
Proof.
  intros Hllm. rewrite (respond_eq llm settings_stream). cbv zeta.
  unfold user. rewrite Hllm. eexists. split; [reflexivity|]. simpl.
  split_and!; [done| |done..]. by rewrite <- app_assoc.
Qed.

(** X21: an agent built with an explicit task list keeps that list as it
    is, even when it is empty; the default system message is made only when
    no list is passed.  [start()] then sends exactly the list given, and with
    an empty list the transcript after it holds the assistant's reply alone. *)
Theorem start_uses_given_task (task : list LLMMessage) (stream : bool)
    (lines : list string) (response : Document Metadata) :
  llm 0 task = Some response →
  ∃ a', start (init (Some task) stream lines) = Ok (document response) a' ∧
        llm_calls (trace a') = [task] ∧
        message_history a'
          = task ++ [{| role := ASSISTANT; content := doc_content response |}] ∧
        (task = [] →
         message_history a'
           = [{| role := ASSISTANT; content := doc_content response |}]).
Proof.
  intros Hllm. rewrite (start_eq llm settings_stream). cbv zeta. simpl.
  rewrite Hllm. eexists. split; [reflexivity|]. simpl.
  split_and!; [done | done |]. by intros ->.
Qed.

End AgentRun.

(** *** The stub session, continued *)

Lemma run_exits_on_agent_result_witness :
  ∃ a', run ok_llm say_bye true 1 (init None false ["unread"]) = Some (Ok () a') ∧
        trace a' =
          [LLMCall true default_task;
           HandleMessage "OK";
           Print ("[red]Agent: " +:+ "bye");
           Print "[green] Bye, hope this was useful!"] ∧
        message_history a' =
          default_task ++ [{| role := ASSISTANT; content := "OK" |}] ∧
        stdin a' = ["unread"].
Proof.
  apply (run_exits_on_agent_result ok_llm say_bye true
           None false ["unread"] ok_reply "bye" 0); try reflexivity.
  unfold exit_tokens. set_solver.
Defined.


Lemma run_sends_growing_transcripts_witness :
  ∃ res, run ok_llm no_action true 2 (init None false ["hello"; "q"]) = Some res ∧
         only_grows (llm_calls (trace (state_of res))) ∧
         ∀ m, m ∈ llm_calls (trace (state_of res)) → default_task `prefix_of` m.
Proof.
  eexists. split; [vm_compute; reflexivity|].
  apply (run_sends_growing_transcripts ok_llm no_action true 2
           (init None false ["hello"; "q"])).
  - reflexivity.
  - vm_compute. reflexivity.
Defined.

Lemma run_transcript_shape_witness :
  ∃ a', run ok_llm no_action true 2 (init None false ["hello"; "q"])
          = Some (Ok () a') ∧
        task_messages a' = default_task ∧
        transcript_shape a' ∧
        (length (message_history a') + 1
         = length default_task + 2 * length (llm_calls (trace a')))%nat.
Proof.
  eexists. split; [vm_compute; reflexivity|].
  apply (run_transcript_shape ok_llm no_action true 2
           (init None false ["hello"; "q"])).
  - reflexivity.
  - vm_compute. reflexivity.
Defined.

Lemma run_failure_site_witness :
  ∃ a', run ok_llm no_action true 1 (init None false []) = Some (Raise EOFError a') ∧
        stopped_at EOFError a'.
Proof.
  eexists. split; [vm_compute; reflexivity|].
  apply (run_failure_site ok_llm no_action true 1 (init None false [])).
  vm_compute. reflexivity.
Defined.

Lemma respond_appends_turn_witness :
  ∃ a', respond ok_llm true "hi" (init None false []) = Ok ok_reply a' ∧
        trace a' = [LLMCall true [{| role := USER; content := "hi" |}]] ∧
        message_history a' =
          [{| role := USER; content := "hi" |};
           {| role := ASSISTANT; content := "OK" |}] ∧
        task_messages a' = default_task ∧
        stdin a' = [].
Proof.
  apply (respond_appends_turn ok_llm true (init None false []) "hi" ok_reply).
  reflexivity.
Defined.

Lemma start_uses_given_task_witness :
  ∃ a', start ok_llm true (init (Some []) false []) = Ok (document ok_reply) a' ∧
        llm_calls (trace a') = [[]] ∧
        message_history a' = [] ++ [{| role := ASSISTANT; content := "OK" |}] ∧
        (@nil LLMMessage = [] →
         message_history a' = [{| role := ASSISTANT; content := "OK" |}]).
Proof.
  apply (start_uses_given_task ok_llm true [] false [] ok_reply).
  reflexivity.
Defined.

End ChatAgentProofs.

(** ** The document chat example *)
Module DocChatProofs.
Import DocChat.

Lemma only_eof_bind {A B : Type} (Φ : A → Prop) (m : C A) (f : A → C B) :
  only_eof m →
  (∀ w x w', m w = Ok x w' → Φ x) →
  (∀ x, Φ x → only_eof (f x)) →
  only_eof (m ≫= f).
Proof.
  intros Hm HΦ Hf w e w''. unfold mbind, C_bind.
  destruct (m w) as [x w'|e' w'] eqn:E.
  - apply Hf. by eapply HΦ.
  - intros [= <- <-]. by eapply Hm.
Qed.

Lemma only_eof_seq {A B : Type} (m : C A) (f : A → C B) :
  only_eof m → (∀ x, only_eof (f x)) → only_eof (m ≫= f).
Proof. intros Hm Hf. apply (only_eof_bind (λ _, True)); auto. Qed.

Lemma only_eof_ret {A : Type} (x : A) : only_eof (mret x : C A).
Proof. by intros w e w'. Qed.

Lemma only_eof_log (e : Event) : only_eof (log e).
Proof. by intros w e' w'. Qed.

Lemma only_eof_ask (prompt : string) (choices : option (list string))
    (default : option string) :
  only_eof (ask prompt choices default).
Proof.
  intros w e w'. unfold ask. destruct (answers w); [|done]. by intros [= <- _].
Qed.

Lemma only_eof_print_options (collections : list string) :
  ∀ i, only_eof (print_options i collections).
Proof.
  induction collections as [|option rest IH]; intros i; simpl.
  - apply only_eof_ret.
  - apply only_eof_seq; [apply only_eof_log | intros _; apply IH].
Qed.

Lemma py_index_in_range (l : list string) (i : Z) (w : World) :
  (0 ≤ i < Z.of_nat (length l))%Z →
  ∃ x, l !! Z.to_nat i = Some x ∧ py_index l i w = Ok x w.
Proof.
  intros Hi. unfold py_index.
  rewrite (bool_decide_eq_true_2 (0 ≤ i)%Z) by lia.
  rewrite bool_decide_eq_true_2 by lia.
  destruct (lookup_lt_is_Some_2 l (Z.to_nat i)) as [x Hx]; [lia|].
  exists x. by rewrite Hx.
Qed.

Section Chat.
Variable int : string → option Z.
Variable n_deletes : Z.
Variable collections : list string.
Variable get_list : list string → option (list string * list string).
Variable default_paths : list string.
Variable without_you_are : string → string.

#[local] Abbreviation valid_choice := (DocChat.valid_choice int).
#[local] Abbreviation ask_choice := (DocChat.ask_choice int).
#[local] Abbreviation select_collection :=
  (DocChat.select_collection int n_deletes collections).
#[local] Abbreviation ingest_and_run :=
  (DocChat.ingest_and_run get_list default_paths without_you_are).
#[local] Abbreviation chat :=
  (DocChat.chat int n_deletes collections get_list default_paths without_you_are).

(** *** The loop that asks for a collection number *)

Lemma ask_choice_raises (n : Z) (remaining : list string) :
  ∀ seen e w', ask_choice n remaining seen = Raise e w' → e = EOFError.
Proof.
  induction remaining as [|choice rest IH]; intros seen e w'; simpl.
  - by intros [= <- _].
  - destruct (int choice) as [k|]; [|apply IH].
    destruct (decide (-1 ≤ k ≤ n)%Z); [done | apply IH].
Qed.

(** An accepted answer is valid, the answers before it were not, and the
    loop has only asked. *)
Lemma ask_choice_returns (n : Z) (remaining : list string) :
  ∀ seen choice w',
    ask_choice n remaining seen = Ok choice w' →
    valid_choice n choice ∧
    ∃ bad, remaining = bad ++ choice :: answers w' ∧
           Forall (λ s, ¬ valid_choice n s) bad ∧
           events w' = seen ++ replicate (S (length bad))
                                 (Asked (choice_prompt n) None (Some "0")).
Proof.
  induction remaining as [|c rest IH]; intros seen choice w'; simpl; [done|].
  destruct (int c) as [k|] eqn:Ek.
  - destruct (decide (-1 ≤ k ≤ n)%Z) as [Hk|Hk].
    + intros [= <- <-]. split; [by exists k|]. exists []. by split_and!.
    + intros (Hv & bad & -> & Hbad & Hev)%IH. split; [done|].
      exists (c :: bad). split_and!; [done| |].
      * constructor; [|done]. intros (k' & Hk' & ?). simplify_eq. lia.
      * rewrite Hev, <- app_assoc. done.
  - intros (Hv & bad & -> & Hbad & Hev)%IH. split; [done|].
    exists (c :: bad). split_and!; [done| |].
    + constructor; [|done]. intros (k' & Hk' & ?). simplify_eq.
    + rewrite Hev, <- app_assoc. done.
Qed.

(** Answers that are not valid are asked again; the first valid one is
    accepted. *)
Lemma ask_choice_accepts (n : Z) (bad : list string) (choice : string)
    (rest : list string) :
  Forall (λ s, ¬ valid_choice n s) bad →
  valid_choice n choice →
  ∀ seen,
    ask_choice n (bad ++ choice :: rest) seen
    = Ok choice {| answers := rest;
                   events := seen ++ replicate (S (length bad))
                                       (Asked (choice_prompt n) None (Some "0")) |}.
Proof.
  intros Hbad (k & Hk & Hrange). induction Hbad as [|c bad Hc Hbad IH];
    intros seen; simpl.
  - rewrite Hk. by rewrite decide_True.
  - destruct (int c) as [k'|] eqn:Ek'.
    + rewrite decide_False by (intros ?; apply Hc; by exists k').
      rewrite IH, <- app_assoc. done.
    + rewrite IH, <- app_assoc. done.
Qed.

(** *** No exception but the end of input *)

Lemma only_eof_select_collection : only_eof select_collection.
Proof.
  unfold DocChat.select_collection. cbv zeta.
  apply only_eof_seq; [apply only_eof_log | intros _].
  apply only_eof_seq; [apply only_eof_print_options | intros _].
  apply (only_eof_bind (valid_choice (Z.of_nat (length collections)))).
  { intros w e w'. apply ask_choice_raises. }
  { intros w choice w' Hrun. by apply ask_choice_returns in Hrun as [? _]. }
  intros choice (k & Hk & Hrange).
  apply only_eof_seq.
  { destruct (decide (choice = "-1")); [|apply only_eof_ret].
    apply only_eof_seq; [apply only_eof_ask | intros confirm].
    destruct (decide (confirm = "y")); [|apply only_eof_ret].
    apply only_eof_seq; [apply only_eof_log | intros _; apply only_eof_ret]. }
  intros collection_name. rewrite Hk.
  apply (only_eof_bind (λ k', k' = k)); [apply only_eof_ret | |].
  { by intros w x w' [= <- _]. }
  intros k' ->. destruct (decide (0 < k)%Z) as [Hpos|_]; [|apply only_eof_ret].
  apply only_eof_seq.
  { intros w e w'.
    destruct (py_index_in_range collections (k - 1) w) as (x & _ & ->); [lia|done]. }
  intros name. apply only_eof_seq; [apply only_eof_log | intros _].
  apply only_eof_seq; [apply only_eof_ask | intros answer; apply only_eof_ret].
Qed.

Lemma only_eof_ingest_and_run (is_new_collection : bool) :
  only_eof (ingest_and_run is_new_collection).
Proof.
  unfold DocChat.ingest_and_run. cbv zeta.
  do 3 (apply only_eof_seq; [apply only_eof_log | intros _]).
  apply only_eof_seq.
  { intros w e w'. destruct (get_list (answers w)) as [[inputs rest]|]; [done|].
    by intros [= <- _]. }
  intros inputs.
  do 2 (apply only_eof_seq; [apply only_eof_log | intros _]).
  apply only_eof_seq; [apply only_eof_ask | intros system_msg].
  apply only_eof_log.
Qed.

Lemma only_eof_chat : only_eof chat.
Proof.
  unfold DocChat.chat.
  do 3 (apply only_eof_seq; [apply only_eof_log | intros _]).
  apply only_eof_seq.
  { destruct (decide (0 < length collections)%nat);
      [apply only_eof_select_collection | apply only_eof_ret]. }
  intros [collection_name replace_collection]. apply only_eof_seq.
  { destruct (decide (collection_name = "NEW")); [|apply only_eof_ret].
    apply only_eof_seq; [apply only_eof_ask | intros name; apply only_eof_ret]. }
  intros [name is_new_collection].
  apply only_eof_seq; [apply only_eof_log | intros _].
  apply only_eof_ingest_and_run.
Qed.

(** X15: whatever the user answers, the statements of [chat] that use the
    number typed for a collection do not raise: [int(choice)] after the loop
    is applied to text that [int] accepted inside the [try], and
    [collections[int(choice) - 1]] is reached only with a number from 1 to
    the number of collections. *)
Theorem chat_choice_in_range (w w' : World) :
  chat w ≠ Raise ValueError w' ∧ chat w ≠ Raise IndexError w'.
Proof.
  split; intros Hrun; by apply only_eof_chat in Hrun.
Qed.

(** *** Evaluating the steps *)

Lemma bind_ok {A B : Type} (m : C A) (f : A → C B) (w w1 : World) (x : A) :
  m w = Ok x w1 → (m ≫= f) w = f x w1.
Proof. intros Hm. unfold mbind, C_bind. by rewrite Hm. Qed.

Lemma bind_raise {A B : Type} (m : C A) (f : A → C B) (w w1 : World) (e : Exn) :
  m w = Raise e w1 → (m ≫= f) w = Raise e w1.
Proof. intros Hm. unfold mbind, C_bind. by rewrite Hm. Qed.

Lemma print_options_eq (names : list string) :
  ∀ i w, print_options i names w
         = Ok () {| answers := answers w;
                    events := events w ++ printed_options i names |}.
Proof.
  induction names as [|option rest IH]; intros i w; simpl.
  - rewrite app_nil_r. by destruct w.
  - erewrite bind_ok by reflexivity. rewrite IH. simpl.
    by rewrite <- app_assoc.
Qed.

Lemma omap_printed_options {B : Type} (pick : Event → option B) (i : Z)
    (names : list string) :
  ignores_dialogue pick → omap pick (printed_options i names) = [].
Proof.
  intros (Hp & _). revert i. induction names as [|option rest IH];
    intros i; simpl; [done|]. by rewrite Hp.
Qed.

Lemma omap_replicate_none {B : Type} (pick : Event → option B) (n : nat)
    (e : Event) :
  pick e = None → omap pick (replicate n e) = [].
Proof. intros He. induction n as [|n IH]; simpl; [done|]. by rewrite He. Qed.

(** *** Steps that add no event of a kind *)

Lemma adds_none_bind {A B D : Type} (pick : Event → option D) (m : C A)
    (f : A → C B) :
  adds_none pick m → (∀ x, adds_none pick (f x)) → adds_none pick (m ≫= f).
Proof.
  intros Hm Hf w. unfold mbind, C_bind. specialize (Hm w).
  destruct (m w) as [x w1|e w1]; simpl in *; [|done].
  by rewrite Hf.
Qed.

(** Whatever follows a step without adding events of the kind, the events
    of the kind are those the step left. *)
Lemma adds_none_after {A B D : Type} (pick : Event → option D) (m : C A)
    (f : A → C B) (w : World) :
  (∀ x, adds_none pick (f x)) →
  omap pick (events (state_of ((m ≫= f) w))) = omap pick (events (state_of (m w))).
Proof.
  intros Hf. unfold mbind, C_bind.
  destruct (m w) as [x w1|e w1]; simpl; [apply Hf | done].
Qed.

Lemma adds_none_ret {A D : Type} (pick : Event → option D) (x : A) :
  adds_none pick (mret x : C A).
Proof. by intros w. Qed.

Lemma adds_none_log {D : Type} (pick : Event → option D) (e : Event) :
  pick e = None → adds_none pick (log e).
Proof. intros He w. simpl. rewrite omap_app. simpl. by rewrite He, app_nil_r. Qed.

Lemma adds_none_ask {D : Type} (pick : Event → option D) (prompt : string)
    (choices : option (list string)) (default : option string) :
  ignores_dialogue pick → adds_none pick (ask prompt choices default).
Proof.
  intros (_ & Ha & _) w. unfold ask.
  destruct (answers w); simpl; rewrite omap_app; simpl;
    by rewrite Ha, app_nil_r.
Qed.

Lemma adds_none_ingest_and_run {D : Type} (pick : Event → option D)
    (is_new_collection : bool) :
  ignores_dialogue pick →
  (∀ paths, pick (SetDocPaths paths) = None) →
  pick Ingest = None →
  (∀ system_message, pick (TaskRun system_message) = None) →
  adds_none pick (ingest_and_run is_new_collection).
Proof.
  intros Hd Hpaths Hingest Htask. unfold DocChat.ingest_and_run. cbv zeta.
  do 3 (apply adds_none_bind; [apply adds_none_log, Hd | intros _]).
  apply adds_none_bind.
  { intros w. destruct Hd as (_ & _ & Hl).
    destruct (get_list (answers w)) as [[inputs rest]|]; simpl;
      rewrite omap_app; simpl; by rewrite Hl, app_nil_r. }
  intros inputs.
  apply adds_none_bind; [by apply adds_none_log | intros _].
  apply adds_none_bind; [by apply adds_none_log | intros _].
  apply adds_none_bind; [by apply adds_none_ask | intros system_msg].
  by apply adds_none_log.
Qed.

Lemma ignores_dialogue_set_collection : ignores_dialogue pick_set_collection.
Proof. by split_and!. Qed.

Lemma ignores_dialogue_clear_all : ignores_dialogue pick_clear_all.
Proof. by split_and!. Qed.

(** *** A vector store without collections *)

(** X16: when the vector store has no collection, no collection number is
    asked for: the first question is the name of the new collection, and
    [set_collection] is called once, with the name answered and without
    replacement. *)
Theorem chat_without_collections (name : string) (rest : list string) :
  collections = [] →
  ∃ w0,
    events w0 =
      [CreateAgent; ClearEmptyCollections; ListCollections;
       Asked "What would you like to name the NEW collection?" None (Some "doc-chat");
       SetCollection name false] ∧
    answers w0 = rest ∧
    chat {| answers := name :: rest; events := [] |} = ingest_and_run true w0 ∧
    set_collection_calls
      (events (state_of (chat {| answers := name :: rest; events := [] |})))
    = [(name, false)].
Proof.
  intros Hnone.
  set (w0 := {| answers := rest;
                events := [CreateAgent; ClearEmptyCollections; ListCollections;
                           Asked "What would you like to name the NEW collection?"
                             None (Some "doc-chat");
                           SetCollection name false] |}).
  assert (Heq : chat {| answers := name :: rest; events := [] |}
                = ingest_and_run true w0).
  { unfold DocChat.chat. rewrite Hnone. reflexivity. }
  exists w0. split_and!; [done | done | exact Heq |].
  rewrite Heq. unfold set_collection_calls.
  by rewrite adds_none_ingest_and_run.
Qed.

(** What [ingest_and_run] assigns to [doc_paths], by the flag it is given. *)
Lemma doc_paths_ingest_and_run (is_new_collection : bool) (w : World)
    (inputs rest : list string) :
  get_list (answers w) = Some (inputs, rest) →
  doc_paths_set (events (state_of (ingest_and_run is_new_collection w)))
  = doc_paths_set (events w) ++
      [if decide (inputs = []) then
         (if is_new_collection then default_paths else []) else inputs].
Proof.
  intros Hlist. unfold DocChat.ingest_and_run. cbv zeta.
  do 3 (erewrite bind_ok by reflexivity).
  erewrite bind_ok by (cbn [answers events]; rewrite Hlist; reflexivity).
  erewrite bind_ok by reflexivity.
  unfold doc_paths_set.
  rewrite adds_none_after.
  2:{ intros _. apply adds_none_bind; [by apply adds_none_ask | intros ?].
      by apply adds_none_log. }
  simpl. rewrite !omap_app. simpl. rewrite !app_nil_r. f_equal. f_equal.
  destruct inputs as [|x inputs]; simpl; [|done].
  by destruct is_new_collection.
Qed.

(** *** Choosing among existing collections *)

Lemma ask_choice_events (n : Z) (remaining : list string) :
  ∀ seen, ∃ m,
    events (state_of (ask_choice n remaining seen))
    = seen ++ replicate m (Asked (choice_prompt n) None (Some "0")).
Proof.
  induction remaining as [|c rest IH]; intros seen; simpl.
  - by exists 1%nat.
  - assert (Hnext : ∃ m, events (state_of (ask_choice n rest
                       (seen ++ [Asked (choice_prompt n) None (Some "0")])))
                     = seen ++ replicate m (Asked (choice_prompt n) None (Some "0"))).
    { destruct (IH (seen ++ [Asked (choice_prompt n) None (Some "0")])) as [m Hm].
      exists (S m). rewrite Hm, <- app_assoc. done. }
    destruct (int c) as [k|]; [|done].
    destruct (decide (-1 ≤ k ≤ n)%Z); [by exists 1%nat | done].
Qed.

Lemma adds_none_py_index {D : Type} (pick : Event → option D) (l : list string)
    (i : Z) :
  adds_none pick (py_index l i).
Proof.
  intros w. unfold py_index. cbv zeta.
  destruct (bool_decide (0 ≤ i)%Z); (case_bool_decide; [|done]);
    by destruct (l !! _).
Qed.

(** After the question of confirmation, nothing in the block deletes. *)
Lemma adds_none_after_confirm (choice collection_name : string) :
  adds_none pick_clear_all
    (k ← match int choice with
         | Some k => mret k
         | None => raise ValueError
         end;
     if decide (0 < k)%Z then
       collection_name ← py_index collections (k - 1);
       print ("Using collection " +:+ collection_name) ;;
       choice ← ask "Would you like to replace this collection?"
                  (Some ["y"; "n"]) (Some "n");
       mret (collection_name, bool_decide (choice = "y"))
     else mret (collection_name, false)).
Proof.
  apply adds_none_bind; [by destruct (int choice)|]. intros k.
  destruct (decide (0 < k)%Z); [|apply adds_none_ret].
  apply adds_none_bind; [apply adds_none_py_index | intros name].
  apply adds_none_bind; [by apply adds_none_log | intros _].
  apply adds_none_bind; [by apply adds_none_ask | intros answer].
  apply adds_none_ret.
Qed.

Lemma adds_none_after_selection (selected : string * bool) :
  adds_none pick_clear_all
    (let '(collection_name, replace_collection) := selected in
     '(collection_name, is_new_collection) ←
       (if decide (collection_name = "NEW") then
          name ← ask "What would you like to name the NEW collection?"
                   None (Some "doc-chat");
          mret (name, true)
        else mret (collection_name, false));
     log (SetCollection collection_name replace_collection) ;;
     ingest_and_run is_new_collection).
Proof.
  destruct selected as [collection_name replace_collection].
  apply adds_none_bind.
  { destruct (decide (collection_name = "NEW")); [|apply adds_none_ret].
    apply adds_none_bind; [by apply adds_none_ask | intros name].
    apply adds_none_ret. }
  intros [name is_new_collection].
  apply adds_none_bind; [by apply adds_none_log | intros _].
  by apply adds_none_ingest_and_run.
Qed.

Ltac no_clear_all :=
  cbn [events]; rewrite ?omap_app; cbn [omap list_omap pick_clear_all app];
  rewrite ?omap_app, ?omap_printed_options, ?omap_replicate_none by done.

(** X18: [chat] deletes all collections only after the user has answered
    the question for a collection number with exactly "-1" (earlier answers
    having been refused) and the question of confirmation that follows with
    "y". *)
Theorem chat_deletes_all_only_when_confirmed (given : list string) :
  ClearAllCollections ∈ events (state_of (chat {| answers := given; events := [] |})) →
  ∃ bad rest,
    given = bad ++ "-1" :: "y" :: rest ∧
    Forall (λ s, ¬ valid_choice (Z.of_nat (length collections)) s) bad.
Proof.
  intros Hclear.
  assert (Hpick : omap pick_clear_all
            (events (state_of (chat {| answers := given; events := [] |}))) ≠ []).
  { intros Hnil. assert (Hin : () ∈ omap pick_clear_all
        (events (state_of (chat {| answers := given; events := [] |})))).
    { apply list_elem_of_omap. by exists ClearAllCollections. }
    rewrite Hnil in Hin. by apply elem_of_nil in Hin. }
  clear Hclear. revert Hpick. unfold DocChat.chat.
  do 3 (erewrite bind_ok by reflexivity).
  rewrite adds_none_after by apply adds_none_after_selection.
  destruct (decide (0 < length collections)%nat) as [_|_]; [|done].
  unfold DocChat.select_collection. cbv zeta.
  erewrite bind_ok by reflexivity.
  erewrite bind_ok by apply print_options_eq.
  cbn [answers events].
  set (w0 := {| answers := given; events := _ |}).
  pose proof (ask_choice_events (Z.of_nat (length collections)) given (events w0))
    as [m Hev].
  destruct (DocChat.ask_choice int (Z.of_nat (length collections)) given (events w0))
    as [choice w1|e w1] eqn:EAC.
  - erewrite bind_ok by exact EAC.
    rewrite adds_none_after by (intros ?; apply adds_none_after_confirm).
    apply ask_choice_returns in EAC as (_ & bad & Hgiven & Hbad & _).
    simpl in Hev.
    destruct (decide (choice = "-1")) as [->|_].
    + unfold mbind, C_bind, ask. destruct (answers w1) as [|confirm rest] eqn:Ew1.
      * simpl. rewrite Hev. subst w0. by no_clear_all.
      * destruct (decide (confirm = "y")) as [->|_].
        -- intros _. by exists bad, rest.
        -- simpl. rewrite Hev. subst w0. by no_clear_all.
    + simpl. rewrite Hev. subst w0. by no_clear_all.
  - erewrite bind_raise by exact EAC. simpl in *.
    rewrite Hev. subst w0. by no_clear_all.
Qed.

(** The block under [if len(collections) > 0] when the user, after answers
    that are refused, picks the [k]-th collection. *)
Lemma select_collection_picks (bad : list string) (choice answer : string)
    (rest : list string) (k : Z) (name : string) (seen : list Event) :
  Forall (λ s, ¬ valid_choice (Z.of_nat (length collections)) s) bad →
  choice ≠ "-1" →
  int choice = Some k →
  (1 ≤ k ≤ Z.of_nat (length collections))%Z →
  collections !! Z.to_nat (k - 1) = Some name →
  ∃ w1,
    select_collection {| answers := bad ++ choice :: answer :: rest; events := seen |}
    = Ok (name, bool_decide (answer = "y")) w1 ∧
    answers w1 = rest ∧
    set_collection_calls (events w1) = set_collection_calls seen ∧
    doc_paths_set (events w1) = doc_paths_set seen.
Proof.
  intros Hbad Hne Hk Hrange Hname.
  unfold DocChat.select_collection. cbv zeta.
  erewrite bind_ok by reflexivity.
  erewrite bind_ok by apply print_options_eq.
  erewrite bind_ok.
  2:{ cbn [answers events]. apply ask_choice_accepts; [done|].
      exists k. split; [done | lia]. }
  rewrite decide_False by done.
  erewrite bind_ok by reflexivity. rewrite Hk.
  erewrite bind_ok by reflexivity.
  rewrite decide_True by lia.
  set (w0 := {| answers := answer :: rest; events := _ |}).
  destruct (py_index_in_range collections (k - 1) w0) as (x & Hx & Hidx); [lia|].
  assert (x = name) as -> by congruence.
  erewrite bind_ok by exact Hidx.
  erewrite bind_ok by reflexivity.
  erewrite bind_ok by reflexivity.
  eexists. split; [reflexivity|]. split; [done|].
  subst w0. unfold set_collection_calls, doc_paths_set. cbn [events].
  rewrite !omap_app. cbn [omap list_omap pick_set_collection pick_doc_paths].
  rewrite !omap_printed_options, !omap_replicate_none by done.
  by rewrite !app_nil_r.
Qed.

(** The block under [if len(collections) > 0] when the user, after answers
    that are refused, gives the number 0 (what hitting ENTER gives): the
    name stays "NEW". *)
Lemma select_collection_new (bad : list string) (choice : string)
    (rest : list string) (seen : list Event) :
  Forall (λ s, ¬ valid_choice (Z.of_nat (length collections)) s) bad →
  choice ≠ "-1" →
  int choice = Some 0%Z →
  ∃ w1,
    select_collection {| answers := bad ++ choice :: rest; events := seen |}
    = Ok ("NEW", false) w1 ∧
    answers w1 = rest ∧
    doc_paths_set (events w1) = doc_paths_set seen.
Proof.
  intros Hbad Hne Hk.
  unfold DocChat.select_collection. cbv zeta.
  erewrite bind_ok by reflexivity.
  erewrite bind_ok by apply print_options_eq.
  erewrite bind_ok.
  2:{ cbn [answers events]. apply ask_choice_accepts; [done|].
      exists 0%Z. split; [done | lia]. }
  rewrite decide_False by done.
  erewrite bind_ok by reflexivity. rewrite Hk.
  erewrite bind_ok by reflexivity.
  rewrite decide_False by lia.
  eexists. split; [reflexivity|]. split; [done|].
  unfold doc_paths_set. cbn [events].
  rewrite !omap_app. cbn [omap list_omap pick_doc_paths].
  rewrite !omap_printed_options, !omap_replicate_none by done.
  by rewrite !app_nil_r.
Qed.

(** X19: when the user picks the [k]-th of the existing collections and its
    name is not "NEW", [set_collection] is called once, with that name, and
    replaces the collection exactly when the next answer is "y". *)
Theorem chat_selects_existing_collection (bad : list string)
    (choice answer : string) (rest : list string) (k : Z) (name : string) :
  Forall (λ s, ¬ valid_choice (Z.of_nat (length collections)) s) bad →
  choice ≠ "-1" →
  int choice = Some k →
  (1 ≤ k ≤ Z.of_nat (length collections))%Z →
  collections !! Z.to_nat (k - 1) = Some name →
  name ≠ "NEW" →
  set_collection_calls
    (events (state_of
       (chat {| answers := bad ++ choice :: answer :: rest; events := [] |})))
  = [(name, bool_decide (answer = "y"))].
Proof.
  intros Hbad Hne Hk Hrange Hname Hnew. unfold DocChat.chat.
  do 3 (erewrite bind_ok by reflexivity).
  rewrite decide_True by lia.
  edestruct (select_collection_picks bad choice answer rest k name)
    as (w1 & Hsel & Hrest & Hcalls & _); [done..|].
  erewrite bind_ok by exact Hsel. cbv beta iota.
  rewrite decide_False by done.
  erewrite bind_ok by reflexivity. cbv beta iota.
  erewrite bind_ok by reflexivity.
  unfold set_collection_calls in *.
  rewrite adds_none_ingest_and_run by done.
  cbn [events]. rewrite omap_app, Hcalls. done.
Qed.

(** X20: a collection that is itself called "NEW" cannot be selected: when
    the user picks it, [chat] asks for the name of a new collection and calls
    [set_collection] with the name answered, still replacing exactly when the
    earlier answer was "y". *)
Theorem chat_selecting_NEW_creates (bad : list string)
    (choice answer new_name : string) (rest : list string) (k : Z) :
  Forall (λ s, ¬ valid_choice (Z.of_nat (length collections)) s) bad →
  choice ≠ "-1" →
  int choice = Some k →
  (1 ≤ k ≤ Z.of_nat (length collections))%Z →
  collections !! Z.to_nat (k - 1) = Some "NEW" →
  set_collection_calls
    (events (state_of
       (chat {| answers := bad ++ choice :: answer :: new_name :: rest;
                events := [] |})))
  = [(new_name, bool_decide (answer = "y"))].
Proof.
  intros Hbad Hne Hk Hrange Hname. unfold DocChat.chat.
  do 3 (erewrite bind_ok by reflexivity).
  rewrite decide_True by lia.
  edestruct (select_collection_picks bad choice answer (new_name :: rest) k "NEW")
    as (w1 & Hsel & Hrest & Hcalls & _); [done..|].
  erewrite bind_ok by exact Hsel. cbv beta iota.
  rewrite decide_True by done.
  erewrite bind_ok.
  2:{ erewrite bind_ok; [reflexivity|]. unfold ask. rewrite Hrest. reflexivity. }
  cbv beta iota.
  erewrite bind_ok by reflexivity.
  unfold set_collection_calls in *.
  rewrite adds_none_ingest_and_run by done.
  cbn [events]. rewrite !omap_app, Hcalls. done.
Qed.

(** *** The paths to ingest *)

(** X17: [chat] sets [doc_paths] once, to what the user listed, except that
    an empty list becomes [config.default_paths] when the collection is new:
    when the vector store has no collection, or when the user answers the
    question for a collection number with 0.  When the user picks an existing
    collection whose name is not "NEW", an empty list stays empty. *)
Theorem chat_doc_paths :
  (∀ (name : string) (rest inputs rest' : list string),
     collections = [] →
     get_list rest = Some (inputs, rest') →
     doc_paths_set
       (events (state_of (chat {| answers := name :: rest; events := [] |})))
     = [if decide (inputs = []) then default_paths else inputs]) ∧
  (∀ (bad : list string) (choice name : string) (rest inputs rest' : list string),
     collections ≠ [] →
     Forall (λ s, ¬ valid_choice (Z.of_nat (length collections)) s) bad →
     choice ≠ "-1" →
     int choice = Some 0%Z →
     get_list rest = Some (inputs, rest') →
     doc_paths_set
       (events (state_of
          (chat {| answers := bad ++ choice :: name :: rest; events := [] |})))
     = [if decide (inputs = []) then default_paths else inputs]) ∧
  (∀ (bad : list string) (choice answer : string) (rest : list string) (k : Z)
     (name : string) (inputs rest' : list string),
     Forall (λ s, ¬ valid_choice (Z.of_nat (length collections)) s) bad →
     choice ≠ "-1" →
     int choice = Some k →
     (1 ≤ k ≤ Z.of_nat (length collections))%Z →
     collections !! Z.to_nat (k - 1) = Some name →
     name ≠ "NEW" →
     get_list rest = Some (inputs, rest') →
     doc_paths_set
       (events (state_of
          (chat {| answers := bad ++ choice :: answer :: rest; events := [] |})))
     = [inputs]).
Proof.
  split_and!.
  - intros name rest inputs rest' Hnone Hlist.
    unfold DocChat.chat. rewrite Hnone.
    do 3 (erewrite bind_ok by reflexivity).
    erewrite bind_ok by reflexivity. cbv beta iota.
    erewrite bind_ok by reflexivity. cbv beta iota.
    erewrite bind_ok by reflexivity.
    erewrite doc_paths_ingest_and_run by exact Hlist. done.
  - intros bad choice name rest inputs rest' Hsome Hbad Hne Hk Hlist.
    unfold DocChat.chat.
    do 3 (erewrite bind_ok by reflexivity).
    rewrite decide_True by (destruct collections; [done | simpl; lia]).
    edestruct (select_collection_new bad choice (name :: rest))
      as (w1 & Hsel & Hrest & Hpaths); [done..|].
    erewrite bind_ok by exact Hsel. cbv beta iota.
    rewrite decide_True by done.
    erewrite bind_ok.
    2:{ erewrite bind_ok; [reflexivity|]. unfold ask. rewrite Hrest. reflexivity. }
    cbv beta iota.
    erewrite bind_ok by reflexivity.
    erewrite doc_paths_ingest_and_run by exact Hlist.
    unfold doc_paths_set in *. cbn [events].
    rewrite !omap_app, Hpaths. done.
  - intros bad choice answer rest k name inputs rest'
      Hbad Hne Hk Hrange Hname Hnew Hlist.
    unfold DocChat.chat.
    do 3 (erewrite bind_ok by reflexivity).
    rewrite decide_True by lia.
    edestruct (select_collection_picks bad choice answer rest k name)
      as (w1 & Hsel & Hrest & _ & Hpaths); [done..|].
    erewrite bind_ok by exact Hsel. cbv beta iota.
    rewrite decide_False by done.
    erewrite bind_ok by reflexivity. cbv beta iota.
    erewrite bind_ok by reflexivity.
    erewrite doc_paths_ingest_and_run
      by (cbn [answers]; rewrite Hrest; exact Hlist).
    unfold doc_paths_set in *. cbn [events].
    rewrite !omap_app, Hpaths. simpl. by destruct inputs.
Qed.

End Chat.

(** *** A session with two collections, one of them called "NEW" *)

Ltac refused :=
  repeat (apply List.Forall_cons;
          [intros (k & Hk & Hrange); vm_compute in Hk; simplify_eq;
           simpl in Hrange; lia|]);
  apply List.Forall_nil.

Lemma chat_without_collections_witness :
  ∃ w0,
    events w0 =
      [CreateAgent; ClearEmptyCollections; ListCollections;
       Asked "What would you like to name the NEW collection?" None (Some "doc-chat");
       SetCollection "papers" false] ∧
    answers w0 = ["done"; ""] ∧
    chat decimal 0 [] list_from_user ["./docs"] id
      {| answers := "papers" :: ["done"; ""]; events := [] |}
    = ingest_and_run list_from_user ["./docs"] id true w0 ∧
    set_collection_calls
      (events (state_of
         (chat decimal 0 [] list_from_user ["./docs"] id
            {| answers := "papers" :: ["done"; ""]; events := [] |})))
    = [("papers", false)].
Proof.
  apply (chat_without_collections decimal 0 [] list_from_user ["./docs"] id
           "papers" ["done"; ""]).
  reflexivity.
Defined.

Lemma chat_doc_paths_witness :
  doc_paths_set
    (events (state_of
       (chat decimal 0 [] list_from_user ["./docs"] id
          {| answers := "papers" :: ["done"; ""]; events := [] |})))
  = [["./docs"]] ∧
  doc_paths_set
    (events (state_of
       (chat decimal 0 ["docs"; "NEW"] list_from_user ["./docs"] id
          {| answers := ["7"] ++ "0" :: "papers" :: ["done"; ""]; events := [] |})))
  = [["./docs"]] ∧
  doc_paths_set
    (events (state_of
       (chat decimal 0 ["docs"; "NEW"] list_from_user ["./docs"] id
          {| answers := ["7"] ++ "1" :: "n" :: ["done"; ""]; events := [] |})))
  = [[]].
Proof.
  split_and!.
  - apply (proj1 (chat_doc_paths decimal 0 [] list_from_user ["./docs"] id)
             "papers" ["done"; ""] [] [""]); reflexivity.
  - apply (proj1 (proj2 (chat_doc_paths decimal 0 ["docs"; "NEW"] list_from_user
                           ["./docs"] id))
             ["7"] "0" "papers" ["done"; ""] [] [""]); try done.
    refused.
  - apply (proj2 (proj2 (chat_doc_paths decimal 0 ["docs"; "NEW"] list_from_user
                           ["./docs"] id))
             ["7"] "1" "n" ["done"; ""] 1%Z "docs" [] [""]); try done.
    refused.
Defined.

Lemma chat_deletes_all_only_when_confirmed_witness :
  ∃ bad rest,
    ["7"; "-1"; "y"; "papers"; "done"; ""] = bad ++ "-1" :: "y" :: rest ∧
    Forall (λ s, ¬ valid_choice decimal (Z.of_nat (length ["docs"; "NEW"])) s) bad.
Proof.
  apply (chat_deletes_all_only_when_confirmed decimal 0 ["docs"; "NEW"]
           list_from_user [] id ["7"; "-1"; "y"; "papers"; "done"; ""]).
  apply list_elem_of_In. vm_compute. tauto.
Defined.

Lemma chat_selects_existing_collection_witness :
  set_collection_calls
    (events (state_of
       (chat decimal 0 ["docs"; "NEW"] list_from_user [] id
          {| answers := ["7"; "x"] ++ "1" :: "y" :: ["done"; ""]; events := [] |})))
  = [("docs", true)].
Proof.
  apply (chat_selects_existing_collection decimal 0 ["docs"; "NEW"]
           list_from_user [] id ["7"; "x"] "1" "y" ["done"; ""] 1 "docs");
    try done.
  refused.
Defined.

Lemma chat_selecting_NEW_creates_witness :
  set_collection_calls
    (events (state_of
       (chat decimal 0 ["docs"; "NEW"] list_from_user [] id
          {| answers := [] ++ "2" :: "y" :: "papers" :: ["done"; ""];
             events := [] |})))
  = [("papers", true)].
Proof.
  apply (chat_selecting_NEW_creates decimal 0 ["docs"; "NEW"]
           list_from_user [] id [] "2" "y" "papers" ["done"; ""] 2);
    try done.
Defined.

End DocChatProofs.
